(** * llguidance-js: speculative logits masking, grammar translation and
      tokenizer normalisation

    A shallow embedding of [src/processor.ts] (the speculative masking
    controller), of the class of [src/parser.ts] with its [convertGrammar],
    and of [src/tokenizer-bridge.ts], with the properties the specification
    states about them.

    What waits on the outside world is a parameter: the WASM module that
    [GuidanceParser.create] loads and the methods of the class it exports,
    each of which may throw, and the [fetch] of [loadTokenizerData], which
    brings the document that [parseTokenizerJson] is then given. *)

From stdpp Require Import gmap strings list sorting pretty.
From Stdlib Require Import ZArith Lia.


(** ** Numbers

    The entries of a [Float32Array] of logits, and the results of arithmetic
    on them.  A finite float32 is an integer multiple of 2^-149, so [Fin z]
    stands for the value z * 2^-149; the two signed zeros are one value. *)
Inductive logit : Type :=
| NaN
| NegInf
| Fin (z : Z)
| PosInf.

(** A JavaScript number: the same values. *)
Abbreviation number := logit (only parsing).

#[global] Instance logit_eq_dec : EqDecision logit.
Proof. solve_decision. Defined.

(** [x - y].  A difference of two float32 values, computed in double
    precision, has the sign of the exact difference; two infinities of one
    sign, or a NaN on either side, give NaN. *)
Definition sub (x y : logit) : number :=
  match x, y with
  | NaN, _ => NaN
  | _, NaN => NaN
  | PosInf, PosInf => NaN
  | NegInf, NegInf => NaN
  | PosInf, _ => PosInf
  | _, PosInf => NegInf
  | NegInf, _ => NegInf
  | _, NegInf => PosInf
  | Fin a, Fin b => Fin (a - b)
  end.

(** The order of the values; NaN is neither below nor above anything. *)
Definition logit_lt (x y : logit) : Prop :=
  match x, y with
  | NegInf, Fin _ => True
  | NegInf, PosInf => True
  | Fin a, Fin b => (a < b)%Z
  | Fin _, PosInf => True
  | _, _ => False
  end.

Definition logit_le (x y : logit) : Prop := logit_lt x y \/ x = y.

(** ** Array.prototype.sort

    [SortCompare] of ECMAScript: the comparator's result [v] is replaced by +0
    when it is NaN, and only its sign is used. *)
Definition SortCompare (v : number) : Z :=
  match v with
  | NaN => 0%Z
  | NegInf => (-1)%Z
  | Fin z => Z.sgn z
  | PosInf => 1%Z
  end.

(** The sort itself is the engine's.  It is modelled by what V8 (the engine
    of Node, which the tests run on) does on an array of fewer than 64
    elements: [CountAndMakeRun] takes the run the array starts with, reversing
    it when it is strictly descending, and [BinaryInsertionSort] inserts the
    elements after it one by one, at the place a binary search gives.  On a
    longer array the engine sorts pieces this way and merges them.  When the
    comparator is consistent, as [b.logit - a.logit] is on a vector without
    NaN, ECMAScript fixes the result (sorted, and stable), and it is the one
    computed here at every length. *)
Section Sort.
Context {A : Type} (comparefn : A -> A -> number).

Definition order (x y : A) : Z := SortCompare (comparefn x y).

(** The number of elements of [rest] that continue the run ending in
    [prev]. *)
Fixpoint run_after (descending : bool) (prev : A) (rest : list A) : nat :=
  match rest with
  | [] => 0
  | cur :: rest' =>
      if descending
      then if (order cur prev <? 0)%Z then S (run_after descending cur rest') else 0
      else if (order cur prev <? 0)%Z then 0 else S (run_after descending cur rest')
  end.

(** The length of the first run, and the array with that run in order. *)
Definition CountAndMakeRun (a : list A) : nat * list A :=
  match a with
  | x0 :: x1 :: rest =>
      let descending := (order x1 x0 <? 0)%Z in
      let n := 2 + run_after descending x1 rest in
      (n, if descending then reverse (take n a) ++ drop n a else a)
  | _ => (length a, a)
  end.

(** The loop [while (left < right)] of the binary search for the place of
    [pivot]; [fuel] bounds its turns, and [right - left] turns are enough. *)
Fixpoint binary_search (fuel : nat) (pivot : A) (a : list A) (left right : nat) : nat :=
  match fuel with
  | O => left
  | S fuel' =>
      if left <? right
      then
        let mid := left + (right - left) / 2 in
        match a !! mid with
        | Some e =>
            if (order pivot e <? 0)%Z
            then binary_search fuel' pivot a left mid
            else binary_search fuel' pivot a (S mid) right
        | None => left
        end
      else left
  end.

(** The loop [for (start = ...; start < high; ++start)], with [count] turns
    left: [a[start]] is moved down to its place in [a[0..start)]. *)
Fixpoint BinaryInsertionSort (count start : nat) (a : list A) : list A :=
  match count with
  | O => a
  | S count' =>
      match a !! start with
      | Some pivot =>
          let left := binary_search start pivot a 0 start in
          BinaryInsertionSort count' (S start)
            (take left a ++ pivot :: drop left (take start a) ++ drop (S start) a)
      | None => a
      end
  end.

Definition sort (a : list A) : list A :=
  if length a <? 2 then a
  else
    let '(n, a1) := CountAndMakeRun a in
    BinaryInsertionSort (length a - n) n a1.
End Sort.

(** [Array.prototype.slice(0, k)] for an integer [k]: a negative [k] counts
    from the end of the array. *)
Definition slice0 {A : Type} (k : Z) (l : list A) : list A :=
  if (k <? 0)%Z
  then take (Z.to_nat (Z.max (Z.of_nat (length l) + k) 0)) l
  else take (Z.to_nat k) l.

(** ** The pure helpers of [GuidanceLogitsProcessor] *)

Record candidate : Type := { tokenId : nat; logit_of : logit }.

#[global] Instance candidate_eq_dec : EqDecision candidate.
Proof. solve_decision. Defined.

(** The loop [for (let i = 0; i < logits.length; i++) indexed.push(...)],
    started at index [i]. *)
Fixpoint indexed_from (i : nat) (logits : list logit) : list candidate :=
  match logits with
  | [] => []
  | v :: logits' => {| tokenId := i; logit_of := v |} :: indexed_from (S i) logits'
  end.

(** [(a, b) => b.logit - a.logit] *)
Definition by_logit_desc (a b : candidate) : number :=
  sub (logit_of b) (logit_of a).

Definition getTopK (logits : list logit) (k : Z) : list candidate :=
  let indexed := indexed_from 0 logits in
  slice0 k (sort by_logit_desc indexed).

(** [masked[allowedToken] = logits[allowedToken]]: a typed array ignores a
    write outside its bounds. *)
Definition maskAllExcept (logits : list logit) (allowedToken : nat) : list logit :=
  let masked := replicate (length logits) NegInf in
  match logits !! allowedToken with
  | Some v => <[allowedToken := v]> masked
  | None => masked
  end.

(** The loop of [applyBitmask], with [n] iterations left from index [i];
    [mask[i]] past the end of the mask is [undefined], which is not [=== 0]. *)
Fixpoint applyBitmask_from (n i : nat) (logits : list logit) (mask : list Z)
  : list logit :=
  match n with
  | O => logits
  | S n' =>
      let logits' :=
        match mask !! i with
        | Some 0%Z => <[i := NegInf]> logits
        | _ => logits
        end in
      applyBitmask_from n' (S i) logits' mask
  end.

Definition applyBitmask (logits : list logit) (mask : list Z) : list logit :=
  applyBitmask_from (length logits) 0 logits mask.

(** ** Effects

    A method of the processor runs in a world made of the heap of [number[]]
    arrays, the processor object, the parser it was given, the console, and a
    record of the calls made to the parser. *)

(** What is thrown: an [Error] the code builds, with its message, or the
    [TypeError] the engine throws when a property of [null] is read, whose
    message is the engine's own. *)
Inductive error : Type :=
| Error (message : string)
| TypeError.

Inductive result (A : Type) : Type :=
| Ok (a : A)
| Throw (e : error).
Arguments Ok {A} a.
Arguments Throw {A} e.

(** The methods of the parser that the processor calls.  The parser is an
    object of its own: a call may answer, or throw, and may change the
    parser's state [S]. *)
Record ParserOps (S : Type) : Type := {
  isTokenAllowed : nat -> S -> result bool * S;
  getTokenMask : S -> result (list Z) * S;
  advance : nat -> S -> result unit * S;
  isComplete : S -> result bool * S;
  reset : S -> result unit * S;
}.
Arguments isTokenAllowed {S} _ _ _.
Arguments getTokenMask {S} _ _.
Arguments advance {S} _ _ _.
Arguments isComplete {S} _ _.
Arguments reset {S} _ _.

(** One call to the parser, with its outcome. *)
Inductive event : Type :=
| EIsTokenAllowed (tokenId : nat) (r : result bool)
| EGetTokenMask (r : result (list Z))
| EAdvance (tokenId : nat) (r : result unit)
| EIsComplete (r : result bool)
| EReset (r : result unit).

(** The lines written by [console.log] when [debug] is set. *)
Inductive log_line : Type :=
| LogTopK (k : Z) (topK : list candidate)
| LogSpeculationHit (tokenId : nat)
| LogSpeculationMiss
| LogAdvanced (tokenId : nat).

(** A reference to an array on the heap. *)
Abbreviation loc := positive (only parsing).

(** The fields of a [GuidanceLogitsProcessor] other than [parser]. *)
Record GuidanceLogitsProcessor : Type := {
  speculationDepth : Z;
  debug : bool;
  generatedTokens : loc;
}.

(** Modelled from the spec: the declaration of [ProcessorOptions] in
    [src/types.ts], which is not among the sources: the configuration accepted
    at construction, a speculation depth (default 5) and a debug flag (default
    false), both optional.  The field names are those the constructor reads,
    with a prefix. *)
Record ProcessorOptions : Type := {
  opt_speculationDepth : option Z;
  opt_debug : option bool;
}.

Record World (S : Type) : Type := {
  heap : gmap positive (list nat);
  this : GuidanceLogitsProcessor;
  parser : S;
  calls : list event;
  console : list log_line;
}.
Arguments heap {S} _.
Arguments this {S} _.
Arguments parser {S} _.
Arguments calls {S} _.
Arguments console {S} _.

Definition M (S A : Type) : Type := World S -> result A * World S.

#[global] Instance M_ret {S} : MRet (M S) := fun A a w => (Ok a, w).
#[global] Instance M_bind {S} : MBind (M S) := fun A B f m w =>
  match m w with
  | (Ok a, w') => f a w'
  | (Throw e, w') => (Throw e, w')
  end.

Section Processor.
Context {S : Type} (P : ParserOps S).

Definition set_heap (h : gmap positive (list nat)) (w : World S) : World S :=
  {| heap := h; this := this w; parser := parser w;
     calls := calls w; console := console w |}.

Definition set_this (t : GuidanceLogitsProcessor) (w : World S) : World S :=
  {| heap := heap w; this := t; parser := parser w;
     calls := calls w; console := console w |}.

(** A call to the parser: its outcome is recorded, and an exception it
    throws propagates. *)
Definition call {A : Type} (op : S -> result A * S) (ev : result A -> event)
  : M S A :=
  fun w =>
    let '(r, s') := op (parser w) in
    (r, {| heap := heap w; this := this w; parser := s';
           calls := calls w ++ [ev r]; console := console w |}).

Definition console_log (line : log_line) : M S unit :=
  fun w =>
    (Ok tt, {| heap := heap w; this := this w; parser := parser w;
               calls := calls w; console := console w ++ [line] |}).

(** [if (this.debug) console.log(...)] *)
Definition debug_log (line : log_line) : M S unit :=
  fun w => if debug (this w) then console_log line w else (Ok tt, w).

Definition get_this : M S GuidanceLogitsProcessor := fun w => (Ok (this w), w).

(** A new array on the heap. *)
Definition alloc (xs : list nat) : M S loc :=
  fun w => let l := fresh (dom (heap w)) in (Ok l, set_heap (<[l := xs]> (heap w)) w).

(** [arr.push(x)]; every array an object refers to is on the heap. *)
Definition push (arr : loc) (x : nat) : M S unit :=
  fun w => (Ok tt, set_heap (alter (fun xs => xs ++ [x]) arr (heap w)) w).

(** The elements of an array, as the spread [...arr] reads them. *)
Definition elements_of (arr : loc) : M S (list nat) :=
  fun w => (Ok (default [] (heap w !! arr)), w).

(** The loop of [process] over the candidates that are left, and what
    follows it.  A hit returns from inside the loop. *)
Fixpoint process_from (logits : list logit) (topK : list candidate)
  : M S (list logit) :=
  match topK with
  | c :: rest =>
      allowed ← call (isTokenAllowed P (tokenId c)) (EIsTokenAllowed (tokenId c));
      if (allowed : bool)
      then debug_log (LogSpeculationHit (tokenId c));;
           mret (maskAllExcept logits (tokenId c))
      else process_from logits rest
  | [] =>
      debug_log LogSpeculationMiss;;
      allowedMask ← call (getTokenMask P) EGetTokenMask;
      mret (applyBitmask logits allowedMask)
  end.

(** [process(inputIds, logits)].  The value is the contents of the array
    that is returned: a new array on a hit, and on a miss the caller's own
    [logits], which [applyBitmask] has written into. *)
Definition process (inputIds : list nat) (logits : list logit)
  : M S (list logit) :=
  t ← get_this;
  let topK := getTopK logits (speculationDepth t) in
  debug_log (LogTopK (speculationDepth t) topK);;
  process_from logits topK.

Definition onToken (tokenId : nat) : M S unit :=
  t ← get_this;
  push (generatedTokens t) tokenId;;
  call (advance P tokenId) (EAdvance tokenId);;
  debug_log (LogAdvanced tokenId).

Definition canStop : M S bool := call (isComplete P) EIsComplete.

(** [reset()]: the field is given a new, empty array. *)
Definition reset_processor : M S unit :=
  arr ← alloc [];
  (fun w => (Ok tt, set_this {| speculationDepth := speculationDepth (this w);
                                debug := debug (this w);
                                generatedTokens := arr |} w));;
  call (reset P) EReset.

(** [getGeneratedTokens()]: [[...this.generatedTokens]] is a new array. *)
Definition getGeneratedTokens : M S loc :=
  t ← get_this;
  xs ← elements_of (generatedTokens t);
  alloc xs.

(** [new GuidanceLogitsProcessor(parser, options)], on a heap [h]. *)
Definition new_GuidanceLogitsProcessor
    (parser0 : S) (options : ProcessorOptions) (h : gmap positive (list nat))
  : World S :=
  let arr := fresh (dom h) in
  {| heap := <[arr := []]> h;
     this := {| speculationDepth := default 5%Z (opt_speculationDepth options);
                debug := default false (opt_debug options);
                generatedTokens := arr |};
     parser := parser0;
     calls := [];
     console := [] |}.
End Processor.

(** ** parser.ts *)

(** A value that [JSON.stringify] accepts. *)
#[warnings="-register-all"]
Inductive json : Type :=
| JNull
| JBool (b : bool)
| JNumber (n : Z)
| JString (s : string)
| JArray (items : list json)
| JObject (fields : list (string * json)).

(** Modelled from the spec: the declaration of [Grammar] in [src/types.ts],
    which is not among the sources; a tagged union of exactly one of a
    json-schema payload, a regular-expression pattern, and a structured-grammar
    text with an optional start-symbol name.  The field names are those
    [convertGrammar] reads. *)
Inductive Grammar : Type :=
| JsonSchemaGrammar (schema : json)
| RegexGrammar (pattern : string)
| LarkGrammar (grammar : string) (startSymbol : option string).

(** The [type] field of a grammar. *)
Definition grammar_type (g : Grammar) : string :=
  match g with
  | JsonSchemaGrammar _ => "json_schema"
  | RegexGrammar _ => "regex"
  | LarkGrammar _ _ => "lark"
  end.

Definition convertGrammar (g : Grammar) : json :=
  match g with
  | JsonSchemaGrammar schema =>
      JObject [("grammars", JArray [JObject [("json_schema", schema)]])]
  | RegexGrammar pattern =>
      JObject [("grammars", JArray [JObject [("rx", JString pattern)]])]
  | LarkGrammar grammar startSymbol =>
      JObject [("grammars",
                JArray [JObject [("lark", JString grammar);
                                 ("start", JString (default "start" startSymbol))]])]
  end.

(** [obj[key]] on an object literal. *)
Fixpoint get_field (key : string) (fields : list (string * json)) : option json :=
  match fields with
  | [] => None
  | (k, v) :: rest => if String.eqb k key then Some v else get_field key rest
  end.

Section GuidanceParser.
(** The class [LLGuidanceParser] of the WASM module [pkg/llguidance_wasm.js]
    is outside the sources: its state [W] and its methods are parameters, and
    so is [JSON.stringify].  A call into the module returns a value or throws
    (an error the module raises, or a trap of its code), and leaves the module
    in some state either way. *)
Context {W : Type}.
Context (is_token_allowed : nat -> W -> result bool * W).
Context (get_token_mask : W -> result (list Z) * W).
Context (wasm_advance : nat -> W -> result unit * W).
Context (is_complete : W -> result bool * W).
Context (wasm_reset : string -> W -> result unit * W).
Context (vocab_size : W -> result nat * W).
Context (JSON_stringify : json -> string).

Record GuidanceParser : Type := {
  wasmParser : W;
  _isInitialized : bool;
}.

Definition ensureInitialized (p : GuidanceParser) : result unit :=
  if _isInitialized p then Ok tt
  else Throw (Error
    "GuidanceParser not initialized. Use GuidanceParser.create() to create an instance.").

Definition with_wasm (p : GuidanceParser) (w : W) : GuidanceParser :=
  {| wasmParser := w; _isInitialized := _isInitialized p |}.

(** A method: [this.ensureInitialized()], then the call into the module,
    whose value is returned and whose exception propagates. *)
Definition guarded {A : Type} (f : W -> result A * W) (p : GuidanceParser)
  : result A * GuidanceParser :=
  match ensureInitialized p with
  | Ok _ => let '(r, w) := f (wasmParser p) in (r, with_wasm p w)
  | Throw e => (Throw e, p)
  end.

Definition parser_isTokenAllowed (tokenId : nat) := guarded (is_token_allowed tokenId).
Definition parser_getTokenMask := guarded get_token_mask.
Definition parser_advance (tokenId : nat) := guarded (wasm_advance tokenId).
Definition parser_isComplete := guarded is_complete.
Definition parser_vocabSize := guarded vocab_size.

(** [reset(grammar?)]: the empty string asks for the original grammar. *)
Definition parser_reset (grammar : option Grammar) :=
  guarded (fun w =>
    match grammar with
    | Some g => wasm_reset (JSON_stringify (convertGrammar g)) w
    | None => wasm_reset "" w
    end).

(** The parser as the processor uses it; [this.parser.reset()] passes no
    grammar. *)
Definition GuidanceParser_ops : ParserOps GuidanceParser :=
  {| isTokenAllowed := parser_isTokenAllowed;
     getTokenMask := parser_getTokenMask;
     advance := parser_advance;
     isComplete := parser_isComplete;
     reset := parser_reset None |}.
End GuidanceParser.

(** ** tokenizer-bridge.ts *)

(** An entry of [added_tokens] as a tokenizer gives it: the flags are
    optional. *)
Record AddedTokenEntry : Type := {
  id : nat;
  content : string;
  single_word : option bool;
  lstrip : option bool;
  rstrip : option bool;
  normalized : option bool;
  special : option bool;
}.

(** Modelled from the spec: the declaration of [TokenizerData] in
    [src/types.ts], which is not among the sources: vocabulary, merge rules
    (ordered, possibly empty), added tokens and the detected model family
    string; an added token is its id, its literal content and five flags.  The
    field names are those the bridge writes, with a prefix. *)
Record AddedToken : Type := {
  at_id : nat;
  at_content : string;
  at_single_word : bool;
  at_lstrip : bool;
  at_rstrip : bool;
  at_normalized : bool;
  at_special : bool;
}.

Record TokenizerData : Type := {
  td_vocab : gmap string nat;
  td_merges : list string;
  td_added_tokens : option (list AddedToken);
  td_model_type : string;
}.

(** [Map<string, number> | Record<string, number>]; a [Map] is listed in its
    iteration order. *)
Inductive vocab_source : Type :=
| VocabMap (entries : list (string * nat))
| VocabRecord (record : gmap string nat).

Record TokenizerModel : Type := {
  model_vocab : option vocab_source;
  model_merges : option (list string);
}.

(** [TransformersTokenizer]; [getVocab] holds what calling it returns. *)
Record TransformersTokenizer : Type := {
  model : option TokenizerModel;
  vocab : option vocab_source;
  added_tokens : option (list AddedTokenEntry);
  getVocab : option (gmap string nat);
}.

(** [result[key] = value] on a plain object: assigning a number to
    [__proto__] reaches the setter of [Object.prototype], which ignores it. *)
Definition assign (result : gmap string nat) (entry : string * nat) : gmap string nat :=
  if String.eqb (fst entry) "__proto__" then result
  else <[fst entry := snd entry]> result.

Definition mapToRecord (input : vocab_source) : gmap string nat :=
  match input with
  | VocabMap entries => foldl assign ∅ entries
  | VocabRecord record => record
  end.

Definition detectModelType (tokenizer : TransformersTokenizer) : string :=
  match model tokenizer ≫= model_merges with
  | Some merges => if decide (0 < length merges) then "bpe" else "unknown"
  | None => "unknown"
  end.

(** The function mapped over [added_tokens] by [extractTokenizerData]. *)
Definition extract_added_token (token : AddedTokenEntry) : AddedToken :=
  {| at_id := id token;
     at_content := content token;
     at_single_word := default false (single_word token);
     at_lstrip := default false (lstrip token);
     at_rstrip := default false (rstrip token);
     at_normalized := default true (normalized token);
     at_special := default false (special token) |}.

Definition vocabulary_error : error :=
  Error ("Unable to extract vocabulary from tokenizer. " ++
         "Ensure you are passing a valid transformer.js tokenizer instance.").

Definition extractTokenizerData (tokenizer : TransformersTokenizer)
  : result TokenizerData :=
  let finish (vocab : gmap string nat) :=
    let merges := default [] (model tokenizer ≫= model_merges) in
    let added := map extract_added_token (default [] (added_tokens tokenizer)) in
    Ok {| td_vocab := vocab;
          td_merges := merges;
          td_added_tokens := Some added;
          td_model_type := detectModelType tokenizer |} in
  match getVocab tokenizer with
  | Some vocab => finish vocab
  | None =>
      match model tokenizer ≫= model_vocab with
      | Some v => finish (mapToRecord v)
      | None =>
          match vocab tokenizer with
          | Some v => finish (mapToRecord v)
          | None => Throw vocabulary_error
          end
      end
  end.

(** The shape [parseTokenizerJson] reads from a decoded [tokenizer.json]. *)
Record TokenizerJsonModel : Type := {
  json_vocab : option (gmap string nat);
  json_merges : option (list string);
  json_type : option string;
}.

Record TokenizerJson : Type := {
  json_model : option TokenizerJsonModel;
  json_added_tokens : option (list AddedTokenEntry);
}.

(** The function mapped over [added_tokens] by [parseTokenizerJson]. *)
Definition parse_added_token (token : AddedTokenEntry) : AddedToken :=
  {| at_id := id token;
     at_content := content token;
     at_single_word := default false (single_word token);
     at_lstrip := default false (lstrip token);
     at_rstrip := default false (rstrip token);
     at_normalized := default true (normalized token);
     at_special := default false (special token) |}.

(** The argument of [parseTokenizerJson] is of type [unknown]: what
    [response.json()] resolved to.  That is [null]; or a boolean, a number, a
    string or an array, on which [data.model] is [undefined]; or an object,
    whose fields are read at the types the cast declares, a field that is
    absent or [null] being [None]. *)
Inductive document : Type :=
| DocNull
| DocValue
| DocObject (data : TokenizerJson).
Coercion DocObject : TokenizerJson >-> document.

(** [data.model?.vocab] reads [model] off the document first, which throws on
    [null]; the optional chain covers a missing [model] only. *)
Definition parseTokenizerJson (json : document) : result TokenizerData :=
  match json with
  | DocNull => Throw TypeError
  | DocValue => Throw (Error "Invalid tokenizer.json: missing model.vocab")
  | DocObject data =>
      match json_model data with
      | Some m =>
          match json_vocab m with
          | Some vocab =>
              Ok {| td_vocab := vocab;
                    td_merges := default [] (json_merges m);
                    td_added_tokens :=
                      match json_added_tokens data with
                      | Some tokens => Some (map parse_added_token tokens)
                      | None => None
                      end;
                    td_model_type := default "unknown" (json_type m) |}
          | None => Throw (Error "Invalid tokenizer.json: missing model.vocab")
          end
      | None => Throw (Error "Invalid tokenizer.json: missing model.vocab")
      end
  end.

(** ** The vocabulary of the specification *)

(** The ranking the specification asks for: logit descending, ties by
    ascending token id. *)
Definition ranks_before (a b : candidate) : Prop :=
  logit_lt (logit_of b) (logit_of a) \/
  (logit_of a = logit_of b /\ tokenId a < tokenId b).

(** A vector with no NaN in it. *)
Definition without_NaN (logits : list logit) : Prop :=
  Forall (fun v => v <> NaN) logits.

(** A candidate whose logit is a number. *)
Definition numeric (c : candidate) : Prop := logit_of c <> NaN.

Definition id_lt (a b : candidate) : Prop := tokenId a < tokenId b.

(** [b] may follow [a] in a run of the sort. *)
Definition continues {A} (f : A -> A -> number) (descending : bool) (a b : A) : Prop :=
  (order f b a <? 0)%Z = descending.

(** What [BinaryInsertionSort] keeps true of the part [pre] it has put in
    order and of the part [post] it has yet to insert. *)
Definition insertion_invariant (pre post : list candidate) : Prop :=
  StronglySorted ranks_before pre /\
  Forall numeric (pre ++ post) /\
  StronglySorted id_lt post /\
  (forall x y, x ∈ pre -> y ∈ post -> tokenId x < tokenId y).

(** Token [t] is the top-ranked one: its logit is a number, no logit of the
    vector is higher, and no token with the same logit has a smaller id. *)
Definition top_ranked (logits : list logit) (t : nat) : Prop :=
  exists v, logits !! t = Some v /\ v <> NaN /\
    forall j u, logits !! j = Some u -> ~ logit_lt v u /\ (u = v -> t <= j).

(** Asked about the tokens [ts] one after the other, from state [s], the
    parser reports each of them not allowed, and ends in state [s']. *)
Inductive rejects {S} (P : ParserOps S) : list nat -> S -> S -> Prop :=
| rejects_nil s : rejects P [] s s
| rejects_cons t ts s s1 s' :
    isTokenAllowed P t s = (Ok false, s1) ->
    rejects P ts s1 s' ->
    rejects P (t :: ts) s s'.

(** The speculation the specification describes, over the candidates in rank
    order from session [s]: the parser is asked about each in turn; the first
    one it allows ends the run with every other logit masked; when it allows
    none, its full mask is fetched and applied; an exception of the parser
    ends the run.  [evs] are the calls made, in order, with their answers,
    [r] is what the run returns or throws, and [s'] the session it leaves. *)
Inductive speculation {S} (P : ParserOps S) (logits : list logit) :
  list candidate -> S -> list event -> result (list logit) -> S -> Prop :=
| speculation_hit c rest s s' :
    isTokenAllowed P (tokenId c) s = (Ok true, s') ->
    speculation P logits (c :: rest) s
      [EIsTokenAllowed (tokenId c) (Ok true)]
      (Ok (maskAllExcept logits (tokenId c))) s'
| speculation_miss c rest s s1 evs r s' :
    isTokenAllowed P (tokenId c) s = (Ok false, s1) ->
    speculation P logits rest s1 evs r s' ->
    speculation P logits (c :: rest) s
      (EIsTokenAllowed (tokenId c) (Ok false) :: evs) r s'
| speculation_throws c rest s e s' :
    isTokenAllowed P (tokenId c) s = (Throw e, s') ->
    speculation P logits (c :: rest) s
      [EIsTokenAllowed (tokenId c) (Throw e)] (Throw e) s'
| speculation_mask s mask s' :
    getTokenMask P s = (Ok mask, s') ->
    speculation P logits [] s
      [EGetTokenMask (Ok mask)] (Ok (applyBitmask logits mask)) s'
| speculation_mask_throws s e s' :
    getTokenMask P s = (Throw e, s') ->
    speculation P logits [] s [EGetTokenMask (Throw e)] (Throw e) s'.

(** What a call asks, and what it is answered. *)
Inductive query : Type :=
| QIsTokenAllowed (tokenId : nat)
| QGetTokenMask
| QAdvance (tokenId : nat)
| QIsComplete
| QReset.

Inductive answer : Type :=
| ABool (r : result bool)
| AMask (r : result (list Z))
| AUnit (r : result unit).

Definition query_of (e : event) : query :=
  match e with
  | EIsTokenAllowed t _ => QIsTokenAllowed t
  | EGetTokenMask _ => QGetTokenMask
  | EAdvance t _ => QAdvance t
  | EIsComplete _ => QIsComplete
  | EReset _ => QReset
  end.

Definition answer_of (e : event) : answer :=
  match e with
  | EIsTokenAllowed _ r => ABool r
  | EGetTokenMask r => AMask r
  | EAdvance _ r => AUnit r
  | EIsComplete r => ABool r
  | EReset r => AUnit r
  end.

(** The calls that only read the parser's session. *)
Definition is_read (e : event) : bool :=
  match e with
  | EIsTokenAllowed _ _ | EGetTokenMask _ => true
  | _ => false
  end.

Definition is_getTokenMask (e : event) : bool :=
  match e with
  | EGetTokenMask _ => true
  | _ => false
  end.

(** The token ids asked about through [isTokenAllowed], in call order. *)
Definition isTokenAllowed_queries (evs : list event) : list nat :=
  omap (fun e => match e with EIsTokenAllowed t _ => Some t | _ => None end) evs.

(** The parser's two read operations leave its session as it was. *)
Definition reads_are_pure {S} (P : ParserOps S) : Prop :=
  (forall t s, snd (isTokenAllowed P t s) = s) /\
  (forall s, snd (getTokenMask P s) = s).

(** What [applyBitmask] leaves at index [i] of a vector that held [x]. *)
Definition masked_at (mask : list Z) (i : nat) (x : logit) : logit :=
  match mask !! i with
  | Some 0%Z => NegInf
  | _ => x
  end.

(** The parser of the test suite: it answers from a fixed predicate and a
    fixed mask, and its session is the list of the tokens it was advanced
    with. *)
Definition mockParser (allowed : nat -> bool) (mask : list Z) : ParserOps (list nat) :=
  {| isTokenAllowed := fun t s => (Ok (allowed t), s);
     getTokenMask := fun s => (Ok mask, s);
     advance := fun t s => (Ok tt, s ++ [t]);
     isComplete := fun s => (Ok false, s);
     reset := fun s => (Ok tt, []) |}.

(** A processor of depth 3 on an empty heap, as the tests build it. *)
Definition test_world (session : list nat) : World (list nat) :=
  new_GuidanceLogitsProcessor session
    {| opt_speculationDepth := Some 3%Z; opt_debug := Some false |} ∅.

(** The calls made since the world [w], in a later world [w']. *)
Definition calls_since {S} (w w' : World S) : list event :=
  drop (length (calls w)) (calls w').

(** What the host does with a processor between two resets. *)
Inductive host_call : Type :=
| HostOnToken (tokenId : nat)
| HostProcess (inputIds : list nat) (logits : list logit)
| HostCanStop
| HostGetGeneratedTokens.

(** The world after a call, whether it returned or threw. *)
Definition after {S A} (m : M S A) (w : World S) : World S := snd (m w).

Definition host_step {S} (P : ParserOps S) (c : host_call) (w : World S) : World S :=
  match c with
  | HostOnToken t => after (onToken P t) w
  | HostProcess inputIds logits => after (process P inputIds logits) w
  | HostCanStop => after (canStop P) w
  | HostGetGeneratedTokens => after getGeneratedTokens w
  end.

Definition host_run {S} (P : ParserOps S) (cs : list host_call) (w : World S) : World S :=
  foldl (fun w c => host_step P c w) w cs.

(** The ids passed to [onToken], in call order. *)
Definition tokens_passed (cs : list host_call) : list nat :=
  omap (fun c => match c with HostOnToken t => Some t | _ => None end) cs.

(** The history of the processor: the contents of [this.generatedTokens]. *)
Definition history {S} (w : World S) : option (list nat) :=
  heap w !! generatedTokens (this w).

(** The caller writes [ys] into an array [arr] it holds. *)
Definition caller_mutates {S} (arr : loc) (ys : list nat) (w : World S) : World S :=
  {| heap := <[arr := ys]> (heap w); this := this w; parser := parser w;
     calls := calls w; console := console w |}.

(** The vocabulary of a result of normalisation, when there is one. *)
Definition vocabulary_of (r : result TokenizerData) : option (gmap string nat) :=
  match r with
  | Ok d => Some (td_vocab d)
  | Throw _ => None
  end.

Definition throws {A} (r : result A) : Prop := exists e, r = Throw e.

(** A flag that was [given] or not, and the default [d], against what was
    [got]: a supplied value is kept, an absent one is defaulted. *)
Definition defaulted (d : bool) (given : option bool) (got : bool) : Prop :=
  match given with
  | Some b => got = b
  | None => got = d
  end.

(** The merge rules are present and non-empty. *)
Definition has_merges (merges : option (list string)) : bool :=
  match merges with
  | Some (_ :: _) => true
  | _ => false
  end.

(** The model family the specification describes: byte-pair-encoding exactly
    when there are merge rules. *)
Definition model_type_by_merges (merges : option (list string)) : string :=
  if has_merges merges then "bpe" else "unknown".

(** A descriptor document in the style of the published [tokenizer.json] of a
    byte-pair model: it names its type, in capitals. *)
Definition bpe_descriptor : TokenizerJson :=
  {| json_model := Some {| json_vocab := Some {[ "hello" := 0; "world" := 1 ]};
                           json_merges := Some ["h e"; "l l"; "o w"];
                           json_type := Some "BPE" |};
     json_added_tokens := None |}.

(** The tokenizer of the first test of the bridge. *)
Definition test_tokenizer : TransformersTokenizer :=
  {| model := Some {| model_vocab := None;
                      model_merges := Some ["h e"; "l l"; "o w"] |};
     vocab := None;
     added_tokens := Some [ {| id := 100; content := "<|endoftext|>";
                               single_word := None; lstrip := None;
                               rstrip := None; normalized := None;
                               special := Some true |} ];
     getVocab := Some {[ "hello" := 0; "world" := 1; "!" := 2 ]} |}.

(** The flags of a normalised added token, in the order [single_word],
    [lstrip], [rstrip], [normalized], [special]. *)
Definition flags (t : AddedToken) : bool * bool * bool * bool * bool :=
  (at_single_word t, at_lstrip t, at_rstrip t, at_normalized t, at_special t).

(** ** The rest of the code *)

(** [GuidanceParser.create] and [initialize].  The import of the WASM module
    and the constructor of its [LLGuidanceParser] are outside the sources: what
    the import settles to and the constructor are parameters, and so is
    [JSON.stringify] on the grammar and on the tokenizer data.  The two
    [await]s run one after the other, so the promise is modelled by its
    outcome. *)
Section Create.
Context {W : Type}.
Context (import_wasm : result unit).
Context (new_LLGuidanceParser : string -> string -> result W).
Context (JSON_stringify : json -> string).
Context (stringify_tokenizer : TokenizerData -> string).

Definition create (grammar : Grammar) (tokenizer : TokenizerData)
  : result (GuidanceParser (W:=W)) :=
  match import_wasm with
  | Throw e => Throw e
  | Ok _ =>
      let grammarJson := JSON_stringify (convertGrammar grammar) in
      let tokenizerJson := stringify_tokenizer tokenizer in
      match new_LLGuidanceParser grammarJson tokenizerJson with
      | Ok w => Ok {| wasmParser := w; _isInitialized := true |}
      | Throw e => Throw e
      end
  end.
End Create.

(** A call of a public method of [GuidanceParser]. *)
Inductive parser_call : Type :=
| PIsTokenAllowed (tokenId : nat)
| PGetTokenMask
| PAdvance (tokenId : nat)
| PIsComplete
| PReset (grammar : option Grammar)
| PVocabSize.

Section ParserCalls.
Context {W : Type}.
Context (is_token_allowed : nat -> W -> result bool * W).
Context (get_token_mask : W -> result (list Z) * W).
Context (wasm_advance : nat -> W -> result unit * W).
Context (is_complete : W -> result bool * W).
Context (wasm_reset : string -> W -> result unit * W).
Context (vocab_size : W -> result nat * W).
Context (JSON_stringify : json -> string).

(** What a call throws, if it throws. *)
Definition thrown {A X} (r : result A * X) : option error * X :=
  (match fst r with Ok _ => None | Throw e => Some e end, snd r).

(** What a call throws, if it throws, and the parser after it. *)
Definition parser_step (c : parser_call) (p : GuidanceParser (W:=W))
  : option error * GuidanceParser (W:=W) :=
  let outcome {A} (r : result A * GuidanceParser (W:=W)) := thrown r in
  match c with
  | PIsTokenAllowed t => outcome (parser_isTokenAllowed is_token_allowed t p)
  | PGetTokenMask => outcome (parser_getTokenMask get_token_mask p)
  | PAdvance t => outcome (parser_advance wasm_advance t p)
  | PIsComplete => outcome (parser_isComplete is_complete p)
  | PReset g => outcome (parser_reset wasm_reset JSON_stringify g p)
  | PVocabSize => outcome (parser_vocabSize vocab_size p)
  end.

(** The errors thrown by a sequence of calls, and the parser after them. *)
Fixpoint parser_run (cs : list parser_call) (p : GuidanceParser (W:=W))
  : list error * GuidanceParser (W:=W) :=
  match cs with
  | [] => ([], p)
  | c :: cs' =>
      let '(e, p1) := parser_step c p in
      let '(es, p2) := parser_run cs' p1 in
      (match e with Some e => e :: es | None => es end, p2)
  end.

(** What the module itself does on a call: what it throws, if it throws,
    and its state after the call. *)
Definition wasm_step (c : parser_call) (w : W) : option error * W :=
  match c with
  | PIsTokenAllowed t => thrown (is_token_allowed t w)
  | PGetTokenMask => thrown (get_token_mask w)
  | PAdvance t => thrown (wasm_advance t w)
  | PIsComplete => thrown (is_complete w)
  | PReset (Some g) => thrown (wasm_reset (JSON_stringify (convertGrammar g)) w)
  | PReset None => thrown (wasm_reset "" w)
  | PVocabSize => thrown (vocab_size w)
  end.

(** The errors the module throws on a sequence of calls, and its state after
    them. *)
Fixpoint wasm_run (cs : list parser_call) (w : W) : list error * W :=
  match cs with
  | [] => ([], w)
  | c :: cs' =>
      let '(e, w1) := wasm_step c w in
      let '(es, w2) := wasm_run cs' w1 in
      (match e with Some e => e :: es | None => es end, w2)
  end.
End ParserCalls.

Definition not_initialized_error : error :=
  Error "GuidanceParser not initialized. Use GuidanceParser.create() to create an instance.".

(** A grammar with its start symbol filled in. *)
Definition with_start (g : Grammar) : Grammar :=
  match g with
  | LarkGrammar grammar startSymbol =>
      LarkGrammar grammar (Some (default "start" startSymbol))
  | _ => g
  end.

(** The rejections of the candidates [pre], as the record of calls has
    them. *)
Definition rejections (pre : list candidate) : list event :=
  (fun c => EIsTokenAllowed (tokenId c) (Ok false)) <$> pre.

(** The same world with another [debug] flag. *)
Definition set_debug {S} (b : bool) (w : World S) : World S :=
  {| heap := heap w;
     this := {| speculationDepth := speculationDepth (this w); debug := b;
                generatedTokens := generatedTokens (this w) |};
     parser := parser w; calls := calls w; console := console w |}.

(** Two worlds that differ in the [debug] flag and the console at most. *)
Definition same_but_debug {S} (w1 w2 : World S) : Prop :=
  heap w1 = heap w2 /\
  speculationDepth (this w1) = speculationDepth (this w2) /\
  generatedTokens (this w1) = generatedTokens (this w2) /\
  parser w1 = parser w2 /\
  calls w1 = calls w2.

(** What the host does with a processor, [reset] included. *)
Inductive host_action : Type :=
| Act (c : host_call)
| ActReset.

Definition host_act {S} (P : ParserOps S) (a : host_action) (w : World S) : World S :=
  match a with
  | Act c => host_step P c w
  | ActReset => after (reset_processor P) w
  end.

Definition host_acts {S} (P : ParserOps S) (acts : list host_action) (w : World S)
  : World S :=
  foldl (fun w a => host_act P a w) w acts.

(** The ids passed to [onToken] since the last [reset], given those before
    the actions. *)
Definition tokens_since_reset (before : list nat) (acts : list host_action) : list nat :=
  foldl (fun acc a =>
           match a with
           | Act (HostOnToken t) => acc ++ [t]
           | Act _ => acc
           | ActReset => []
           end) before acts.

(** The tokenizer object that exposes the data of a descriptor document
    through its [model] and [added_tokens] fields. *)
Definition tokenizer_of_descriptor (data : TokenizerJson) : TransformersTokenizer :=
  {| model := (fun m => {| model_vocab := VocabRecord <$> json_vocab m;
                           model_merges := json_merges m |}) <$> json_model data;
     vocab := None;
     added_tokens := json_added_tokens data;
     getVocab := None |}.

(** [loadTokenizerData].  [fetch] is a parameter; a response carries what
    [response.json()] settles to: the decoded document, whatever JSON value it
    is, or the exception of a body that is not JSON. *)
Record LoadOptions : Type := {
  token : option string;
  baseUrl : option string;
}.

Record Response : Type := {
  ok : bool;
  status : nat;
  statusText : string;
  response_json : result document;
}.

Definition tokenizer_url (modelId : string) (options : LoadOptions) : string :=
  let baseUrl := default "https://huggingface.co" (baseUrl options) in
  baseUrl +:+ "/" +:+ modelId +:+ "/resolve/main/tokenizer.json".

(** [if (options.token)]: the empty string is falsy. *)
Definition request_headers (options : LoadOptions) : gmap string string :=
  match token options with
  | Some t => if String.eqb t "" then ∅ else {[ "Authorization" := "Bearer " +:+ t ]}
  | None => ∅
  end.

Definition loadTokenizerData
    (fetch : string -> gmap string string -> result Response)
    (modelId : string) (options : LoadOptions) : result TokenizerData :=
  let url := tokenizer_url modelId options in
  let headers := request_headers options in
  match fetch url headers with
  | Throw e => Throw e
  | Ok response =>
      if negb (ok response)
      then Throw (Error ("Failed to fetch tokenizer from " +:+ url +:+ ": " +:+
                         pretty (status response) +:+ " " +:+ statusText response))
      else
        match response_json response with
        | Throw e => Throw e
        | Ok tokenizerJson => parseTokenizerJson tokenizerJson
        end
  end.

(** ** Inputs for the further properties *)

(** A parser that answers, or throws, as a script says. *)
Definition scriptedParser (allowed : nat -> result bool) (mask : result (list Z))
  : ParserOps (list nat) :=
  {| isTokenAllowed := fun t s => (allowed t, s);
     getTokenMask := fun s => (mask, s);
     advance := fun t s => (Ok tt, s ++ [t]);
     isComplete := fun s => (Ok false, s);
     reset := fun s => (Ok tt, []) |}.

(** A parser whose [advance] and [reset] throw. *)
Definition failingParser : ParserOps (list nat) :=
  {| isTokenAllowed := fun t s => (Ok true, s);
     getTokenMask := fun s => (Ok [], s);
     advance := fun t s => (Throw (Error "advance failed"), s);
     isComplete := fun s => (Ok false, s);
     reset := fun s => (Throw (Error "reset failed"), s) |}.

(** A stand-in for the WASM module: its state is the list of the tokens it
    was advanced with; it allows the even tokens, and throws when it is
    advanced with another one. *)
Definition stub_is_token_allowed (t : nat) (w : list nat)
  : result bool * list nat := (Ok (Nat.even t), w).
Definition stub_get_token_mask (w : list nat) : result (list Z) * list nat :=
  (Ok [1; 0]%Z, w).
Definition stub_advance (t : nat) (w : list nat) : result unit * list nat :=
  if Nat.even t then (Ok tt, w ++ [t]) else (Throw (Error "token not allowed"), w).
Definition stub_is_complete (w : list nat) : result bool * list nat := (Ok false, w).
Definition stub_reset (grammarJson : string) (w : list nat)
  : result unit * list nat := (Ok tt, []).
Definition stub_vocab_size (w : list nat) : result nat * list nat := (Ok 2, w).
Definition stub_stringify (j : json) : string :=
  match j with
  | JObject _ => "{}"
  | _ => "null"
  end.
Definition stub_stringify_tokenizer (d : TokenizerData) : string := "{}".
Definition stub_constructor (grammarJson tokenizerJson : string) : result (list nat) :=
  Ok [].

Definition stub_ops : ParserOps (GuidanceParser (W:=list nat)) :=
  GuidanceParser_ops stub_is_token_allowed stub_get_token_mask stub_advance
    stub_is_complete stub_reset stub_stringify.

Definition stub_run :=
  parser_run stub_is_token_allowed stub_get_token_mask stub_advance
    stub_is_complete stub_reset stub_vocab_size stub_stringify.

(** A processor of depth 3 over a stand-in parser that was never
    initialised. *)
Definition uninitialized_world : World (GuidanceParser (W:=list nat)) :=
  new_GuidanceLogitsProcessor {| wasmParser := []; _isInitialized := false |}
    {| opt_speculationDepth := Some 3%Z; opt_debug := None |} ∅.

(** A server that knows one model and asks for a token. *)
Definition stub_fetch (url : string) (headers : gmap string string) : result Response :=
  if String.eqb url "https://huggingface.co/gpt2/resolve/main/tokenizer.json"
  then
    match headers !! "Authorization" with
    | Some _ =>
        Ok {| ok := true; status := 200; statusText := "OK";
              response_json := Ok (DocObject bpe_descriptor) |}
    | None =>
        Ok {| ok := false; status := 401; statusText := "Unauthorized";
              response_json := Ok (DocObject bpe_descriptor) |}
    end
  else Ok {| ok := false; status := 404; statusText := "Not Found";
             response_json := Throw (Error "Unexpected end of JSON input") |}.

(** * Properties *)

(** ** The order of the logits *)

Lemma logit_lt_irrefl (x : logit) : ~ logit_lt x x.
Proof. destruct x; simpl; lia. Qed.

Lemma logit_lt_trans (x y z : logit) : logit_lt x y -> logit_lt y z -> logit_lt x z.
Proof. destruct x, y, z; simpl; try tauto; lia. Qed.

Lemma logit_lt_asym (x y : logit) : logit_lt x y -> ~ logit_lt y x.
Proof. intros H1 H2. exact (logit_lt_irrefl x (logit_lt_trans _ _ _ H1 H2)). Qed.

Lemma logit_trichotomy (x y : logit) :
  x <> NaN -> y <> NaN -> logit_lt x y \/ x = y \/ logit_lt y x.
Proof.
  destruct x as [| |a|], y as [| |b|]; simpl; intros; auto; try congruence.
  destruct (Z.lt_trichotomy a b) as [?|[->|?]]; auto.
Qed.

(** On logits that are numbers, the comparator of [getTopK] is negative
    exactly when its first argument has the higher logit; two infinities of
    one sign subtract to NaN and count as equal. *)
Lemma order_by_logit_desc (x y : candidate) :
  logit_of x <> NaN -> logit_of y <> NaN ->
  (order by_logit_desc x y <? 0)%Z = true <-> logit_lt (logit_of y) (logit_of x).
Proof.
  unfold order, by_logit_desc.
  destruct (logit_of x) as [| |a|], (logit_of y) as [| |b|]; simpl;
    intros Hx Hy; try congruence; rewrite ?Z.ltb_lt; try (split; [lia | tauto]);
    try (split; [tauto | lia]).
  split; intros H.
  - destruct (Z.lt_trichotomy b a) as [?|[->|?]]; [done| |].
    + rewrite Z.sub_diag in H. simpl in H. lia.
    + pose proof (Z.sgn_pos (b - a)). lia.
  - pose proof (Z.sgn_neg (b - a)). lia.
Qed.

Lemma ranks_before_trans (a b c : candidate) :
  ranks_before a b -> ranks_before b c -> ranks_before a c.
Proof.
  unfold ranks_before. intros [H1|[E1 L1]] [H2|[E2 L2]].
  - left. eapply logit_lt_trans; eauto.
  - left. congruence.
  - left. congruence.
  - right. split; [congruence | lia].
Qed.

#[local] Instance ranks_before_transitive : Transitive ranks_before.
Proof. intros a b c. apply ranks_before_trans. Qed.

Lemma ranks_before_of_order (pivot x : candidate) :
  numeric pivot -> numeric x ->
  (order by_logit_desc pivot x <? 0)%Z = true -> ranks_before pivot x.
Proof. intros Hp Hx H. left. by apply order_by_logit_desc. Qed.

Lemma ranks_before_of_not_order (pivot x : candidate) :
  numeric pivot -> numeric x -> tokenId x < tokenId pivot ->
  (order by_logit_desc pivot x <? 0)%Z = false -> ranks_before x pivot.
Proof.
  intros Hp Hx Hid H.
  destruct (logit_trichotomy (logit_of pivot) (logit_of x) Hp Hx) as [Hl|[He|Hl]].
  - by left.
  - right. by split.
  - apply order_by_logit_desc in Hl; [congruence | done..].
Qed.

Lemma StronglySorted_lookup {A} (R : relation A) (l : list A) (i j : nat) (x y : A) :
  StronglySorted R l -> i < j -> l !! i = Some x -> l !! j = Some y -> R x y.
Proof.
  intros Hs. revert i j. induction Hs as [|a l Hs IH Ha]; intros i j Hij Hi Hj.
  { done. }
  destruct i as [|i], j as [|j]; try lia; simpl in *.
  - injection Hi as ->. rewrite Forall_forall in Ha.
    apply Ha. by eapply list_elem_of_lookup_2.
  - eapply (IH i j); [lia | done..].
Qed.

(** *** The binary search *)

Lemma binary_search_spec (pivot : candidate) (pre post : list candidate)
    (fuel left right : nat) :
  StronglySorted ranks_before pre -> Forall numeric pre -> numeric pivot ->
  left <= right <= length pre -> right - left <= fuel ->
  (forall i e, i < left -> pre !! i = Some e ->
               (order by_logit_desc pivot e <? 0)%Z = false) ->
  (forall i e, right <= i -> pre !! i = Some e ->
               (order by_logit_desc pivot e <? 0)%Z = true) ->
  let pos := binary_search by_logit_desc fuel pivot (pre ++ post) left right in
  pos <= length pre /\
  (forall i e, i < pos -> pre !! i = Some e ->
               (order by_logit_desc pivot e <? 0)%Z = false) /\
  (forall i e, pos <= i -> pre !! i = Some e ->
               (order by_logit_desc pivot e <? 0)%Z = true).
Proof.
  intros Hs Hn Hp. revert left right.
  induction fuel as [|fuel IH]; intros left right Hlr Hfuel Hlow Hhigh;
    cbn [binary_search].
  { assert (left = right) as -> by lia. cbv zeta. split; [lia|]. by split. }
  destruct (Nat.ltb_spec left right) as [Hlt|Hge].
  2:{ assert (left = right) as -> by lia. cbv zeta. split; [lia|]. by split. }
  assert (Hmid : left <= left + (right - left) / 2 < right).
  { pose proof (Nat.div_lt (right - left) 2 ltac:(lia) ltac:(lia)). lia. }
  set (mid := left + (right - left) / 2) in *.
  rewrite lookup_app_l by lia.
  destruct (lookup_lt_is_Some_2 pre mid ltac:(lia)) as [e He]. rewrite He.
  rewrite Forall_forall in Hn.
  assert (Hne : numeric e) by (apply Hn; by eapply list_elem_of_lookup_2).
  destruct (order by_logit_desc pivot e <? 0)%Z eqn:Ho.
  - apply IH; [lia | lia | done |].
    intros i e' Hi He'. destruct (decide (i = mid)) as [->|Hne'].
    { congruence. }
    destruct (decide (right <= i)) as [Hr|Hr]; [by eapply Hhigh|].
    assert (Hne2 : numeric e') by (apply Hn; by eapply list_elem_of_lookup_2).
    pose proof (StronglySorted_lookup _ _ mid i e e' Hs ltac:(lia) He He') as HR.
    apply order_by_logit_desc in Ho; [|done..].
    apply order_by_logit_desc; [done..|].
    destruct HR as [HR|[HR _]]; [eapply logit_lt_trans; eauto | congruence].
  - apply IH; [lia | lia | | done].
    intros i e' Hi He'. destruct (decide (i = mid)) as [->|Hne'].
    { congruence. }
    destruct (decide (i < left)) as [Hl|Hl]; [by eapply Hlow|].
    assert (Hne2 : numeric e') by (apply Hn; by eapply list_elem_of_lookup_2).
    pose proof (StronglySorted_lookup _ _ i mid e' e Hs ltac:(lia) He' He) as HR.
    destruct (order by_logit_desc pivot e' <? 0)%Z eqn:Ho'; [|done].
    apply order_by_logit_desc in Ho'; [|done..].
    assert (logit_lt (logit_of e) (logit_of pivot)) as Habs.
    { destruct HR as [HR|[HR _]]; [eapply logit_lt_trans; eauto | congruence]. }
    apply order_by_logit_desc in Habs; [congruence | done..].
Qed.

Lemma indexed_from_ids (i : nat) (logits : list logit) :
  Forall (fun c => i <= tokenId c) (indexed_from i logits).
Proof.
  revert i. induction logits as [|v l IH]; intros i; simpl; constructor.
  - simpl. lia.
  - eapply Forall_impl; [apply (IH (S i))|]. simpl. intros; lia.
Qed.

Lemma ranks_before_asym (a b : candidate) : ranks_before a b -> ~ ranks_before b a.
Proof.
  unfold ranks_before. intros [H1|[E1 L1]] [H2|[E2 L2]].
  - eapply logit_lt_asym; eauto.
  - rewrite E2 in H1. eapply logit_lt_irrefl; eauto.
  - rewrite E1 in H2. eapply logit_lt_irrefl; eauto.
  - lia.
Qed.

(** ** The sort is a permutation *)

Section SortPermutation.
Context {A : Type} (f : A -> A -> number).

Lemma binary_search_bounds (fuel : nat) (pivot : A) (a : list A) (left right : nat) :
  left <= right ->
  left <= binary_search f fuel pivot a left right <= right.
Proof.
  revert left right. induction fuel as [|fuel IH]; intros left right Hlr;
    cbn [binary_search]; [lia|].
  destruct (Nat.ltb_spec left right) as [Hlt|Hge]; [|lia].
  assert (Hmid : left <= left + (right - left) / 2 < right).
  { pose proof (Nat.div_lt (right - left) 2 ltac:(lia) ltac:(lia)). lia. }
  destruct (a !! (left + (right - left) / 2)) as [e|]; [|lia].
  destruct (order f pivot e <? 0)%Z.
  - specialize (IH left (left + (right - left) / 2)). lia.
  - specialize (IH (S (left + (right - left) / 2)) right). lia.
Qed.

Lemma insertion_Permutation (a : list A) (start left : nat) (pivot : A) :
  a !! start = Some pivot -> left <= start ->
  take left a ++ pivot :: drop left (take start a) ++ drop (S start) a ≡ₚ a.
Proof.
  intros Hp Hl.
  assert (E : (take left a ++ drop left (take start a)) ++ pivot :: drop (S start) a = a).
  { replace (take left a) with (take left (take start a))
      by (rewrite take_take; f_equal; lia).
    rewrite take_drop. by apply take_drop_middle. }
  rewrite <- E at 4. rewrite <- app_assoc. apply Permutation_app_head.
  apply Permutation_middle.
Qed.

Lemma BinaryInsertionSort_Permutation (count start : nat) (a : list A) :
  BinaryInsertionSort f count start a ≡ₚ a.
Proof.
  revert start a. induction count as [|count IH]; intros start a; simpl; [done|].
  destruct (a !! start) as [pivot|] eqn:Hp; [|done].
  rewrite IH. apply insertion_Permutation; [done|].
  apply (binary_search_bounds start pivot a 0 start). lia.
Qed.

Lemma CountAndMakeRun_Permutation (a : list A) :
  snd (CountAndMakeRun f a) ≡ₚ a.
Proof.
  destruct a as [|x0 [|x1 rest]]; [done..|].
  unfold CountAndMakeRun. cbv zeta.
  destruct (order f x1 x0 <? 0)%Z; [|done]. cbn [snd].
  by rewrite reverse_Permutation, take_drop.
Qed.

Lemma sort_Permutation (l : list A) : sort f l ≡ₚ l.
Proof.
  unfold sort. destruct (length l <? 2); [done|].
  pose proof (CountAndMakeRun_Permutation l) as Hr.
  destruct (CountAndMakeRun f l) as [n a1]. simpl in Hr.
  by rewrite BinaryInsertionSort_Permutation.
Qed.
End SortPermutation.

(** ** The sort ranks *)

(** *** The insertions *)

Lemma BinaryInsertionSort_ranked (post pre : list candidate) :
  insertion_invariant pre post ->
  StronglySorted ranks_before
    (BinaryInsertionSort by_logit_desc (length post) (length pre) (pre ++ post)).
Proof.
  revert pre. induction post as [|pivot post IH]; intros pre (Hs & Hn & Hid & Hlt).
  { simpl. by rewrite app_nil_r. }
  cbn [length BinaryInsertionSort].
  rewrite list_lookup_middle by done.
  apply Forall_app in Hn as [Hnpre Hnpost].
  apply Forall_cons in Hnpost as [Hnp Hnpost].
  destruct (binary_search_spec pivot pre (pivot :: post) (length pre) 0 (length pre)
              Hs Hnpre Hnp ltac:(lia) ltac:(lia)) as (Hpos & Hlow & Hhigh).
  { intros; lia. }
  { intros i e Hi He. apply lookup_lt_Some in He. lia. }
  set (pos := binary_search by_logit_desc (length pre) pivot (pre ++ pivot :: post)
                0 (length pre)) in *.
  rewrite take_app_le by done.
  rewrite take_app_length.
  replace (drop (S (length pre)) (pre ++ pivot :: post)) with post.
  2:{ rewrite cons_middle, app_assoc.
      rewrite drop_app_length'; [done|]. rewrite length_app. simpl. lia. }
  set (pre' := take pos pre ++ pivot :: drop pos pre).
  assert (Hlen : length pre' = S (length pre)).
  { unfold pre'. rewrite length_app. simpl. rewrite length_take, length_drop. lia. }
  replace (take pos pre ++ pivot :: drop pos pre ++ post) with (pre' ++ post).
  2:{ unfold pre'. by rewrite <- app_assoc. }
  rewrite <- Hlen. apply IH.
  apply StronglySorted_cons in Hid as [Hpl Hid].
  rewrite Forall_forall in Hpl, Hnpre.
  assert (Hin : forall x, x ∈ pre' <-> x = pivot \/ x ∈ pre).
  { intros x. unfold pre'. rewrite elem_of_app, elem_of_cons.
    rewrite <- (take_drop pos pre) at 3. rewrite elem_of_app. tauto. }
  split; [|split; [|split]].
  - unfold pre'.
    rewrite <- (take_drop pos pre) in Hs.
    apply StronglySorted_app in Hs as (Hcross & Hs1 & Hs2).
    apply StronglySorted_app_2; [| done |].
    + intros x y Hx Hy. apply elem_of_cons in Hy as [->|Hy]; [|by apply Hcross].
      apply elem_of_take in Hx as (i & Hx & Hi).
      apply ranks_before_of_not_order; [done | | | by eapply Hlow].
      * apply Hnpre. by eapply list_elem_of_lookup_2.
      * apply Hlt; [by eapply list_elem_of_lookup_2 | left].
    + apply StronglySorted_cons. split; [|done].
      rewrite Forall_forall. intros y Hy.
      apply list_elem_of_lookup in Hy as [i Hy]. rewrite lookup_drop in Hy.
      apply ranks_before_of_order; [done | |].
      * apply Hnpre. by eapply list_elem_of_lookup_2.
      * eapply Hhigh; [|done]. lia.
  - rewrite Forall_app. split; [|done].
    rewrite Forall_forall. intros x Hx. apply Hin in Hx as [->|Hx]; [done|].
    by apply Hnpre.
  - done.
  - intros x y Hx Hy. apply Hin in Hx as [->|Hx].
    + by apply Hpl.
    + apply Hlt; [done | by right].
Qed.

(** *** The first run *)

Section Run.
Context {A : Type} (f : A -> A -> number).

Lemma run_after_chain (descending : bool) (prev : A) (rest : list A) :
  run_after f descending prev rest <= length rest /\
  Sorted (continues f descending) (prev :: take (run_after f descending prev rest) rest).
Proof.
  revert prev. induction rest as [|cur rest IH]; intros prev; simpl.
  { split; [lia|]. repeat constructor. }
  destruct (IH cur) as [Hlen Hs].
  destruct descending; destruct (order f cur prev <? 0)%Z eqn:Ho; simpl;
    (split; [lia|]);
    first [ by repeat constructor
          | constructor; [exact Hs | constructor; exact Ho] ].
Qed.
End Run.

Lemma run_ranked (descending : bool) (l : list candidate) :
  Sorted (continues by_logit_desc descending) l ->
  StronglySorted id_lt l -> Forall numeric l ->
  StronglySorted ranks_before (if descending then reverse l else l).
Proof.
  intros Hs Hid Hn.
  assert (Sorted (if descending then flip ranks_before else ranks_before) l) as H.
  { induction Hs as [|a l Hs IH Hd]; [by destruct descending; constructor|].
    apply StronglySorted_cons in Hid as [Hal Hid].
    apply Forall_cons in Hn as [Hna Hn].
    specialize (IH Hid Hn).
    assert (HdRel (if descending then flip ranks_before else ranks_before) a l) as Hd'.
    { destruct Hd as [|b l Hab]; [by destruct descending; constructor|].
      apply Forall_cons in Hal as [Hab' _]. apply Forall_cons in Hn as [Hnb _].
      unfold continues in Hab. destruct descending; constructor.
      - by apply ranks_before_of_order.
      - by apply ranks_before_of_not_order. }
    destruct descending; by constructor. }
  destruct descending.
  - apply Sorted_StronglySorted; [apply _|].
    apply Sorted_reverse in H. exact H.
  - apply Sorted_StronglySorted; [apply _ | exact H].
Qed.

Lemma indexed_from_id_lt (i : nat) (logits : list logit) :
  StronglySorted id_lt (indexed_from i logits).
Proof.
  revert i. induction logits as [|v l IH]; intros i; simpl; constructor; [apply IH|].
  pose proof (indexed_from_ids (S i) l) as H.
  eapply Forall_impl; [exact H|]. unfold id_lt. simpl. intros; lia.
Qed.

(** On candidates listed by ascending id whose logits are numbers, the sort
    gives the ranking. *)
Lemma sort_ranked (l : list candidate) :
  StronglySorted id_lt l -> Forall numeric l ->
  StronglySorted ranks_before (sort by_logit_desc l).
Proof.
  intros Hid Hn. unfold sort.
  destruct l as [|x0 [|x1 rest]]; [constructor | repeat constructor |].
  change (length (x0 :: x1 :: rest) <? 2) with false. cbv iota.
  unfold CountAndMakeRun. cbv zeta.
  set (l := x0 :: x1 :: rest) in *.
  set (d := (order by_logit_desc x1 x0 <? 0)%Z).
  destruct (run_after_chain by_logit_desc d x1 rest) as [Hm Hchain].
  set (m := run_after by_logit_desc d x1 rest) in *.
  assert (Hlen : 2 + m <= length l) by (unfold l; simpl; lia).
  assert (Hprefix : Sorted (continues by_logit_desc d) (take (2 + m) l)).
  { unfold l. simpl. constructor; [exact Hchain|]. constructor. reflexivity. }
  rewrite <- (take_drop (2 + m) l) in Hid, Hn.
  apply StronglySorted_app in Hid as (Hcross & Hid1 & Hid2).
  apply Forall_app in Hn as [Hn1 Hn2].
  pose proof (run_ranked d (take (2 + m) l) Hprefix Hid1 Hn1) as Hrun.
  set (pre := if d then reverse (take (2 + m) l) else take (2 + m) l) in *.
  assert (Hpre : forall x, x ∈ pre <-> x ∈ take (2 + m) l).
  { intros x. unfold pre. destruct d; [apply elem_of_reverse | done]. }
  assert (Hlpre : length pre = 2 + m).
  { unfold pre. destruct d; rewrite ?length_reverse, length_take; lia. }
  assert (Ha1 : (if d then reverse (take (2 + m) l) ++ drop (2 + m) l else l)
                = pre ++ drop (2 + m) l).
  { unfold pre. destruct d; [done | by rewrite take_drop]. }
  cbn [fst snd]. rewrite Ha1.
  assert (Hinv : insertion_invariant pre (drop (2 + m) l)).
  { split; [exact Hrun|]. split; [|split; [done|]].
    - rewrite Forall_app. split; [|done].
      rewrite Forall_forall in Hn1 |- *. intros x Hx. by apply Hn1, Hpre.
    - intros x y Hx Hy. apply Hcross; [by apply Hpre | done]. }
  pose proof (BinaryInsertionSort_ranked _ _ Hinv) as Hfinal.
  rewrite Hlpre, length_drop in Hfinal. exact Hfinal.
Qed.

Lemma indexed_from_numeric (i : nat) (logits : list logit) :
  without_NaN logits -> Forall numeric (indexed_from i logits).
Proof.
  intros H. revert i. induction H as [|v l Hv H IH]; intros i; simpl; constructor;
    [exact Hv | apply IH].
Qed.

Lemma sort_indexed_ranked (i : nat) (logits : list logit) :
  without_NaN logits ->
  StronglySorted ranks_before (sort by_logit_desc (indexed_from i logits)).
Proof.
  intros H. apply sort_ranked; [apply indexed_from_id_lt | by apply indexed_from_numeric].
Qed.

Lemma elem_of_indexed_from (i : nat) (logits : list logit) (c : candidate) :
  c ∈ indexed_from i logits <->
  i <= tokenId c /\ logits !! (tokenId c - i) = Some (logit_of c).
Proof.
  revert i. induction logits as [|v l IH]; intros i; simpl.
  - rewrite elem_of_nil. split; [done | intros [_ H]; done].
  - rewrite elem_of_cons, IH. split.
    + intros [->|[Hi Hl]]; simpl.
      * split; [lia|]. by rewrite Nat.sub_diag.
      * split; [lia|]. replace (tokenId c - i) with (S (tokenId c - S i)) by lia. done.
    + intros [Hi Hl]. destruct (decide (tokenId c = i)) as [E|N].
      * left. rewrite E, Nat.sub_diag in Hl. simpl in Hl.
        destruct c; simpl in *; congruence.
      * right. split; [lia|].
        replace (tokenId c - i) with (S (tokenId c - S i)) in Hl by lia. done.
Qed.

Lemma length_indexed_from (i : nat) (logits : list logit) :
  length (indexed_from i logits) = length logits.
Proof. revert i. induction logits; intros; simpl; auto. Qed.

Lemma slice0_nonneg {A} (k : Z) (l : list A) :
  (0 <= k)%Z -> slice0 k l = take (Z.to_nat k) l.
Proof. intros H. unfold slice0. destruct (Z.ltb_spec k 0); [lia | done]. Qed.

(** The ranked list of all candidates is unique, so [sort] can only be it. *)
Lemma ranking_unique (l1 l2 : list candidate) :
  StronglySorted ranks_before l1 -> StronglySorted ranks_before l2 ->
  l1 ≡ₚ l2 -> l1 = l2.
Proof.
  apply StronglySorted_unique_strong.
  intros x1 x2 _ _ H1 H2. destruct (ranks_before_asym _ _ H1 H2).
Qed.

Lemma getTopK_take (logits : list logit) (k : Z) :
  (0 <= k)%Z ->
  getTopK logits k = take (Z.to_nat k) (sort by_logit_desc (indexed_from 0 logits)).
Proof. intros Hk. unfold getTopK. by apply slice0_nonneg. Qed.

(** Whatever algorithm the engine sorts with, on a vector without NaN a
    result that lists all indices in the order of the ranking is the one
    [sort] computes. *)
Lemma sort_is_the_ranking (logits : list logit) (l : list candidate) :
  without_NaN logits ->
  l ≡ₚ indexed_from 0 logits ->
  StronglySorted ranks_before l ->
  l = sort by_logit_desc (indexed_from 0 logits).
Proof.
  intros Hn Hp Hs.
  apply ranking_unique; [done | by apply sort_indexed_ranked |].
  by rewrite sort_Permutation.
Qed.

(** The head of the ranking is the top-ranked token. *)
Lemma sort_indexed_head (logits : list logit) (t : nat) (v : logit) :
  without_NaN logits ->
  logits !! t = Some v ->
  (forall j u, logits !! j = Some u -> logit_lt u v \/ (u = v /\ t <= j)) ->
  exists rest,
    sort by_logit_desc (indexed_from 0 logits)
    = {| tokenId := t; logit_of := v |} :: rest.
Proof.
  intros Hn Ht Htop.
  pose proof (sort_indexed_ranked 0 logits Hn) as Hs.
  pose proof (sort_Permutation by_logit_desc (indexed_from 0 logits)) as Hp.
  set (c := {| tokenId := t; logit_of := v |}).
  assert (Hc : c ∈ sort by_logit_desc (indexed_from 0 logits)).
  { rewrite Hp. apply elem_of_indexed_from. simpl. split; [lia|].
    by rewrite Nat.sub_0_r. }
  destruct (sort by_logit_desc (indexed_from 0 logits)) as [|h rest] eqn:E.
  { by apply elem_of_nil in Hc. }
  exists rest. f_equal.
  apply elem_of_cons in Hc as [Hc|Hc]; [done|].
  apply StronglySorted_inv in Hs as [_ Hh].
  rewrite Forall_forall in Hh. specialize (Hh c Hc).
  assert (Hin : h ∈ indexed_from 0 logits) by (rewrite <- Hp; left).
  apply elem_of_indexed_from in Hin as [_ Hin]. rewrite Nat.sub_0_r in Hin.
  destruct (Htop _ _ Hin) as [Hlt|[Heq Hle]]; destruct Hh as [Hh|[Hh1 Hh2]]; simpl in *.
  - destruct (logit_lt_asym _ _ Hlt Hh).
  - rewrite Hh1 in Hlt. destruct (logit_lt_irrefl _ Hlt).
  - rewrite Heq in Hh. destruct (logit_lt_irrefl _ Hh).
  - lia.
Qed.

(** ** The steps of the monad *)

Section ProcessorFacts.
Context {S : Type} (P : ParserOps S).

Lemma debug_log_spec (line : log_line) (w : World S) :
  exists out,
    debug_log line w =
    (Ok tt, {| heap := heap w; this := this w; parser := parser w;
               calls := calls w; console := out |}).
Proof.
  unfold debug_log, console_log. destruct (debug (this w)); [eauto|].
  exists (console w). by destruct w.
Qed.

(** One turn of the loop of [process]. *)
Lemma process_from_cons (logits : list logit) (c : candidate)
    (rest : list candidate) (w : World S) :
  process_from P logits (c :: rest) w =
  let '(r, s') := isTokenAllowed P (tokenId c) (parser w) in
  let w1 := {| heap := heap w; this := this w; parser := s';
               calls := calls w ++ [EIsTokenAllowed (tokenId c) r];
               console := console w |} in
  match r with
  | Ok true =>
      (Ok (maskAllExcept logits (tokenId c)),
       snd (debug_log (LogSpeculationHit (tokenId c)) w1))
  | Ok false => process_from P logits rest w1
  | Throw e => (Throw e, w1)
  end.
Proof.
  simpl. unfold mbind, M_bind, call at 1.
  destruct (isTokenAllowed P (tokenId c) (parser w)) as [[[|]|e] s']; try done.
  destruct (debug_log_spec (LogSpeculationHit (tokenId c))
    {| heap := heap w; this := this w; parser := s';
       calls := calls w ++ [EIsTokenAllowed (tokenId c) (Ok true)];
       console := console w |}) as [out ->]. done.
Qed.

(** After the loop: the full mask. *)
Lemma process_from_nil (logits : list logit) (w : World S) :
  process_from P logits [] w =
  let w0 := snd (debug_log LogSpeculationMiss w) in
  let '(r, s') := getTokenMask P (parser w0) in
  let w1 := {| heap := heap w0; this := this w0; parser := s';
               calls := calls w0 ++ [EGetTokenMask r];
               console := console w0 |} in
  match r with
  | Ok mask => (Ok (applyBitmask logits mask), w1)
  | Throw e => (Throw e, w1)
  end.
Proof.
  simpl. unfold mbind, M_bind.
  destruct (debug_log_spec LogSpeculationMiss w) as [out ->]. simpl.
  unfold call. simpl.
  destruct (getTokenMask P (parser w)) as [[mask|e] s']; done.
Qed.

Lemma process_unfold (inputIds : list nat) (logits : list logit) (w : World S) :
  process P inputIds logits w =
  process_from P logits (getTopK logits (speculationDepth (this w)))
    (snd (debug_log (LogTopK (speculationDepth (this w))
                       (getTopK logits (speculationDepth (this w)))) w)).
Proof.
  unfold process, mbind, M_bind, get_this.
  destruct (debug_log_spec (LogTopK (speculationDepth (this w))
    (getTopK logits (speculationDepth (this w)))) w) as [out ->]. done.
Qed.
End ProcessorFacts.

(** ** The two masks *)

Lemma length_maskAllExcept (logits : list logit) (t : nat) :
  length (maskAllExcept logits t) = length logits.
Proof.
  unfold maskAllExcept. destruct (logits !! t);
    by rewrite ?length_insert, length_replicate.
Qed.

Lemma maskAllExcept_winner (logits : list logit) (t : nat) :
  t < length logits -> maskAllExcept logits t !! t = logits !! t.
Proof.
  intros Ht. unfold maskAllExcept.
  destruct (logits !! t) as [v|] eqn:E.
  - apply list_lookup_insert_eq. by rewrite length_replicate.
  - apply lookup_ge_None in E. lia.
Qed.

Lemma maskAllExcept_others (logits : list logit) (t i : nat) :
  i < length logits -> i <> t -> maskAllExcept logits t !! i = Some NegInf.
Proof.
  intros Hi Hne. unfold maskAllExcept.
  destruct (logits !! t); rewrite ?list_lookup_insert_ne by done;
    by apply lookup_replicate_2.
Qed.

Lemma applyBitmask_from_lookup (n j : nat) (logits : list logit) (mask : list Z)
    (i : nat) :
  applyBitmask_from n j logits mask !! i =
  if decide (j <= i < j + n) then masked_at mask i <$> logits !! i else logits !! i.
Proof.
  revert j logits. induction n as [|n IH]; intros j logits; simpl.
  { case_decide; [lia | done]. }
  rewrite IH.
  assert (Hstep : forall l' : list logit,
    l' = match mask !! j with Some 0%Z => <[j := NegInf]> logits | _ => logits end ->
    l' !! i = if decide (i = j) then masked_at mask i <$> logits !! i else logits !! i).
  { intros l' ->. case_decide as Hij.
    - subst i. unfold masked_at. destruct (mask !! j) as [[| |]|]; try by destruct (logits !! j).
      destruct (logits !! j) eqn:E; simpl.
      + apply list_lookup_insert_eq. by eapply lookup_lt_Some.
      + rewrite list_insert_ge; [done|]. by apply lookup_ge_None.
    - destruct (mask !! j) as [[| |]|]; try done.
      by rewrite list_lookup_insert_ne. }
  rewrite (Hstep _ eq_refl).
  repeat case_decide; try lia; done.
Qed.

Lemma applyBitmask_lookup (logits : list logit) (mask : list Z) (i : nat) :
  applyBitmask logits mask !! i = masked_at mask i <$> logits !! i.
Proof.
  unfold applyBitmask. rewrite applyBitmask_from_lookup.
  case_decide as H; [done|].
  rewrite (proj2 (lookup_ge_None logits i)); [done | lia].
Qed.

Lemma length_applyBitmask (logits : list logit) (mask : list Z) :
  length (applyBitmask logits mask) = length logits.
Proof.
  unfold applyBitmask. generalize (length logits) at 1. intros n.
  generalize 0. revert logits.
  induction n as [|n IH]; intros logits j; simpl; [done|].
  rewrite IH. destruct (mask !! j) as [[| |]|]; by rewrite ?length_insert.
Qed.

(** ** What [process] does to the world *)

Lemma calls_since_app {S} (w w' : World S) (evs : list event) :
  calls w' = calls w ++ evs -> calls_since w w' = evs.
Proof. intros E. unfold calls_since. rewrite E. apply drop_app_length. Qed.

Section ProcessFrame.
Context {S : Type} (P : ParserOps S).

Lemma process_from_frame (logits : list logit) (topK : list candidate)
    (w : World S) :
  heap (snd (process_from P logits topK w)) = heap w /\
  this (snd (process_from P logits topK w)) = this w /\
  exists evs,
    calls (snd (process_from P logits topK w)) = calls w ++ evs /\
    forallb is_read evs = true /\
    isTokenAllowed_queries evs `prefix_of` (tokenId <$> topK) /\
    (reads_are_pure P -> parser (snd (process_from P logits topK w)) = parser w).
Proof.
  revert w. induction topK as [|c rest IH]; intros w.
  - rewrite process_from_nil.
    destruct (debug_log_spec (S:=S) LogSpeculationMiss w) as [out ->]. simpl.
    destruct (getTokenMask P (parser w)) as [r s'] eqn:E.
    assert (Hs : reads_are_pure P -> s' = parser w).
    { intros [_ H]. specialize (H (parser w)). by rewrite E in H. }
    destruct r; simpl; (split; [done|]; split; [done|]);
      eexists; (split; [done|]); simpl; (split; [done|]);
      (split; [apply prefix_nil | done]).
  - rewrite process_from_cons.
    destruct (isTokenAllowed P (tokenId c) (parser w)) as [r s'] eqn:E.
    assert (Hs : reads_are_pure P -> s' = parser w).
    { intros [H _]. specialize (H (tokenId c) (parser w)). by rewrite E in H. }
    destruct r as [[|]|e]; cbv beta iota zeta.
    + match goal with |- context [debug_log ?l ?w0] =>
        destruct (debug_log_spec (S:=S) l w0) as [out ->] end. simpl.
      split; [done|]. split; [done|]. eexists. split; [done|]. simpl.
      split; [done|]. split; [|done].
      apply prefix_cons, prefix_nil.
    + match goal with |- context [process_from P logits rest ?w0] =>
        destruct (IH w0) as (Hh & Ht & evs & Hc & Hr & Hq & Hp) end.
      simpl in *. split; [done|]. split; [done|].
      exists (EIsTokenAllowed (tokenId c) (Ok false) :: evs).
      split; [by rewrite Hc, <- app_assoc|]. simpl.
      split; [done|]. split; [by apply prefix_cons|].
      intros Hpure. rewrite Hp by done. by apply Hs.
    + simpl. split; [done|]. split; [done|]. eexists. split; [done|]. simpl.
      split; [done|]. split; [|done].
      apply prefix_cons, prefix_nil.
Qed.

Lemma process_frame (inputIds : list nat) (logits : list logit) (w : World S) :
  heap (snd (process P inputIds logits w)) = heap w /\
  this (snd (process P inputIds logits w)) = this w /\
  exists evs,
    calls (snd (process P inputIds logits w)) = calls w ++ evs /\
    forallb is_read evs = true /\
    isTokenAllowed_queries evs
      `prefix_of` (tokenId <$> getTopK logits (speculationDepth (this w))) /\
    (reads_are_pure P -> parser (snd (process P inputIds logits w)) = parser w).
Proof.
  rewrite process_unfold.
  destruct (debug_log_spec (S:=S) (LogTopK (speculationDepth (this w))
    (getTopK logits (speculationDepth (this w)))) w) as [out ->]. simpl.
  match goal with |- context [process_from P logits ?l ?w0] =>
    destruct (process_from_frame logits l w0) as (Hh & Ht & evs & Hc & Hr & Hq & Hp) end.
  simpl in *. eauto 10.
Qed.

(** The loop is the speculation of the specification over the candidates it
    is given. *)
Lemma process_from_speculation (logits : list logit) (topK : list candidate)
    (w : World S) :
  exists evs,
    calls (snd (process_from P logits topK w)) = calls w ++ evs /\
    speculation P logits topK (parser w) evs
      (fst (process_from P logits topK w))
      (parser (snd (process_from P logits topK w))).
Proof.
  revert w. induction topK as [|c rest IH]; intros w.
  - rewrite process_from_nil.
    destruct (debug_log_spec (S:=S) LogSpeculationMiss w) as [out ->]. simpl.
    destruct (getTokenMask P (parser w)) as [[mask|e] s'] eqn:E; simpl;
      eexists; (split; [reflexivity|]).
    + by apply speculation_mask.
    + by apply speculation_mask_throws.
  - rewrite process_from_cons.
    destruct (isTokenAllowed P (tokenId c) (parser w)) as [[[|]|e] s'] eqn:E;
      cbv beta iota zeta.
    + match goal with |- context [debug_log ?l ?w0] =>
        destruct (debug_log_spec (S:=S) l w0) as [out ->] end. simpl.
      eexists. split; [reflexivity|]. by apply speculation_hit.
    + match goal with |- context [process_from P logits rest ?w0] =>
        destruct (IH w0) as (evs & Hc & Hs) end.
      simpl in *. exists (EIsTokenAllowed (tokenId c) (Ok false) :: evs).
      split; [by rewrite Hc, <- app_assoc|].
      by eapply speculation_miss.
    + simpl. eexists. split; [reflexivity|]. by apply speculation_throws.
Qed.

Lemma process_speculation (inputIds : list nat) (logits : list logit)
    (w : World S) :
  speculation P logits (getTopK logits (speculationDepth (this w))) (parser w)
    (calls_since w (snd (process P inputIds logits w)))
    (fst (process P inputIds logits w))
    (parser (snd (process P inputIds logits w))).
Proof.
  rewrite process_unfold.
  destruct (debug_log_spec (S:=S) (LogTopK (speculationDepth (this w))
    (getTopK logits (speculationDepth (this w)))) w) as [out ->]. simpl.
  match goal with |- context [process_from P logits ?l ?w0] =>
    destruct (process_from_speculation logits l w0) as (evs & Hc & Hs) end.
  simpl in *. by rewrite (calls_since_app _ _ _ Hc).
Qed.

(** The speculation leaves no choice: the candidates, the session and the
    parser fix the calls, the result and the session that is left. *)
Lemma speculation_functional (logits : list logit) (topK : list candidate)
    (s : S) evs1 r1 s1 evs2 r2 s2 :
  speculation P logits topK s evs1 r1 s1 ->
  speculation P logits topK s evs2 r2 s2 ->
  evs1 = evs2 /\ r1 = r2 /\ s1 = s2.
Proof.
  intros H1. revert evs2 r2 s2.
  induction H1; intros evs2 r2 s2 H2; inversion H2; subst;
    try congruence; try (split; [|split]; congruence).
  assert (s1 = s3) by congruence. subst s3.
  match goal with H : speculation _ _ _ _ _ _ _ |- _ =>
    destruct (IHspeculation _ _ _ H) as (-> & -> & ->) end.
  done.
Qed.

End ProcessFrame.

(** ** The claims about [process] *)

(** On a vector without NaN the top-ranked token is the first candidate. *)
Lemma top_ranked_first (logits : list logit) (t : nat) :
  without_NaN logits ->
  top_ranked logits t ->
  exists v, logits !! t = Some v /\
    exists rest, sort by_logit_desc (indexed_from 0 logits)
                 = {| tokenId := t; logit_of := v |} :: rest.
Proof.
  intros Hn (v & Hv & Hnum & Htop). exists v. split; [done|].
  apply sort_indexed_head; [done..|].
  intros j u Hu. destruct (Htop j u Hu) as [Hle Hid].
  assert (Hnu : u <> NaN).
  { unfold without_NaN in Hn. rewrite Forall_lookup in Hn. by eapply Hn. }
  destruct (logit_trichotomy u v Hnu Hnum) as [?|[->|?]]; [by left | | done].
  right. split; [done | by apply Hid].
Qed.


(** C1. On a vector without NaN: when the top-ranked token (highest logit,
    smallest id among equals) is reported allowed and the speculation depth is
    at least 1, [process] returns a vector of the length of the input that
    holds the original logit at that token's index and negative infinity at
    every other index; the only call made to the parser is that one
    [isTokenAllowed], so [getTokenMask] is not invoked. *)
Theorem process_top_token_allowed {S} (P : ParserOps S) (w : World S)
    (inputIds : list nat) (logits : list logit) (t : nat) (s' : S) :
  without_NaN logits ->
  (1 <= speculationDepth (this w))%Z ->
  top_ranked logits t ->
  isTokenAllowed P t (parser w) = (Ok true, s') ->
  exists masked w',
    process P inputIds logits w = (Ok masked, w') /\
    length masked = length logits /\
    masked !! t = logits !! t /\
    (forall i, i < length logits -> i <> t -> masked !! i = Some NegInf) /\
    calls_since w w' = [EIsTokenAllowed t (Ok true)] /\
    filter is_getTokenMask (calls_since w w') = [].
Proof.
  intros Hn Hk Htop Hallowed.
  destruct (top_ranked_first logits t Hn Htop) as (v & Hv & rest & Hsort).
  rewrite process_unfold, getTopK_take, Hsort by lia.
  destruct (Z.to_nat (speculationDepth (this w))) as [|n] eqn:En; [lia|].
  rewrite firstn_cons.
  match goal with |- context [debug_log ?l w] =>
    destruct (debug_log_spec (S:=S) l w) as [out ->] end.
  rewrite process_from_cons. simpl. rewrite Hallowed.
  match goal with |- context [debug_log ?l ?w0] =>
    destruct (debug_log_spec (S:=S) l w0) as [out' ->] end.
  simpl. eexists _, _. split; [reflexivity|].
  assert (Hlt : t < length logits) by (by eapply lookup_lt_Some).
  split; [apply length_maskAllExcept|].
  split; [by apply maskAllExcept_winner|].
  split; [intros; by apply maskAllExcept_others|].
  erewrite calls_since_app by (simpl; reflexivity). done.
Qed.


(** C10. [process] leaves the heap, the processor object and so the history
    as they were; every call it makes to the parser is an [isTokenAllowed] or
    a [getTokenMask], never [advance] or [reset]; and the session of a parser
    whose two read operations change nothing is unchanged. *)
Theorem process_leaves_history_and_session {S} (P : ParserOps S) (w : World S)
    (inputIds : list nat) (logits : list logit) :
  heap (after (process P inputIds logits) w) = heap w /\
  this (after (process P inputIds logits) w) = this w /\
  history (after (process P inputIds logits) w) = history w /\
  forallb is_read (calls_since w (after (process P inputIds logits) w)) = true /\
  (reads_are_pure P -> parser (after (process P inputIds logits) w) = parser w).
Proof.
  unfold after, history.
  destruct (process_frame P inputIds logits w) as (Hh & Ht & evs & Hc & Hr & _ & Hp).
  rewrite Hh, Ht. repeat split; try done.
  by rewrite (calls_since_app _ _ _ Hc).
Qed.

(** ** Determinism of the candidate queries *)

Section Determinism.
Context {S1 S2 : Type} (P1 : ParserOps S1) (P2 : ParserOps S2).

(** Two runs of the loop over the same candidates that are given the same
    answers ask the same questions and return the same result. *)
Lemma process_from_deterministic (logits : list logit) (topK : list candidate)
    (w1 : World S1) (w2 : World S2) :
  answer_of <$> calls_since w1 (snd (process_from P1 logits topK w1)) =
  answer_of <$> calls_since w2 (snd (process_from P2 logits topK w2)) ->
  calls_since w1 (snd (process_from P1 logits topK w1)) =
  calls_since w2 (snd (process_from P2 logits topK w2)) /\
  fst (process_from P1 logits topK w1) = fst (process_from P2 logits topK w2).
Proof.
  revert w1 w2. induction topK as [|c rest IH]; intros w1 w2.
  - rewrite !process_from_nil.
    destruct (debug_log_spec (S:=S1) LogSpeculationMiss w1) as [out1 ->].
    destruct (debug_log_spec (S:=S2) LogSpeculationMiss w2) as [out2 ->].
    simpl.
    destruct (getTokenMask P1 (parser w1)) as [r1 s1'].
    destruct (getTokenMask P2 (parser w2)) as [r2 s2'].
    destruct r1, r2; simpl;
      do 2 (erewrite calls_since_app by (simpl; reflexivity)); simpl;
      intros [= ?]; subst; done.
  - rewrite !process_from_cons.
    destruct (isTokenAllowed P1 (tokenId c) (parser w1)) as [r1 s1'].
    destruct (isTokenAllowed P2 (tokenId c) (parser w2)) as [r2 s2'].
    cbv beta iota zeta.
    set (w1a := {| heap := heap w1; this := this w1; parser := s1';
                   calls := calls w1 ++ [EIsTokenAllowed (tokenId c) r1];
                   console := console w1 |}).
    set (w2a := {| heap := heap w2; this := this w2; parser := s2';
                   calls := calls w2 ++ [EIsTokenAllowed (tokenId c) r2];
                   console := console w2 |}).
    (* the calls of each run, whichever way it goes on *)
    assert (H1 : exists evs1,
      calls_since w1 (snd (match r1 with
        | Ok true => (Ok (maskAllExcept logits (tokenId c)),
                      snd (debug_log (LogSpeculationHit (tokenId c)) w1a))
        | Ok false => process_from P1 logits rest w1a
        | Throw e => (Throw e, w1a) end))
      = EIsTokenAllowed (tokenId c) r1 :: evs1 /\
      (r1 = Ok false -> evs1 = calls_since w1a (snd (process_from P1 logits rest w1a))) /\
      (r1 <> Ok false -> evs1 = [])).
    { destruct r1 as [[|]|e].
      - destruct (debug_log_spec (S:=S1) (LogSpeculationHit (tokenId c)) w1a) as [o ->].
        exists []. split; [by apply calls_since_app | done].
      - destruct (process_from_frame P1 logits rest w1a) as (_ & _ & evs & Hc & _).
        exists evs. split; [|split; [|done]].
        + apply calls_since_app. rewrite Hc. simpl. by rewrite <- app_assoc.
        + intros _. symmetry. by apply calls_since_app.
      - exists []. split; [by apply calls_since_app | done]. }
    assert (H2 : exists evs2,
      calls_since w2 (snd (match r2 with
        | Ok true => (Ok (maskAllExcept logits (tokenId c)),
                      snd (debug_log (LogSpeculationHit (tokenId c)) w2a))
        | Ok false => process_from P2 logits rest w2a
        | Throw e => (Throw e, w2a) end))
      = EIsTokenAllowed (tokenId c) r2 :: evs2 /\
      (r2 = Ok false -> evs2 = calls_since w2a (snd (process_from P2 logits rest w2a))) /\
      (r2 <> Ok false -> evs2 = [])).
    { destruct r2 as [[|]|e].
      - destruct (debug_log_spec (S:=S2) (LogSpeculationHit (tokenId c)) w2a) as [o ->].
        exists []. split; [by apply calls_since_app | done].
      - destruct (process_from_frame P2 logits rest w2a) as (_ & _ & evs & Hc & _).
        exists evs. split; [|split; [|done]].
        + apply calls_since_app. rewrite Hc. simpl. by rewrite <- app_assoc.
        + intros _. symmetry. by apply calls_since_app.
      - exists []. split; [by apply calls_since_app | done]. }
    destruct H1 as (evs1 & -> & Hf1 & Hn1), H2 as (evs2 & -> & Hf2 & Hn2).
    simpl. intros [= Hr Hevs]. subst r2.
    destruct r1 as [[|]|e].
    + rewrite Hn1, Hn2 by done. done.
    + rewrite Hf1, Hf2 in * by done.
      destruct (IH w1a w2a Hevs) as [-> ->]. done.
    + rewrite Hn1, Hn2 by done. done.
Qed.
End Determinism.

(** C3. On a vector without NaN the candidates of [process] are the first
    [k] entries of the ranking of all indices by descending logit, ties by
    ascending token id, and there is one such ranking only.  On every vector,
    [process] runs the speculation of the specification over these candidates
    in their order: its calls to the parser, what it returns or throws and the
    session it leaves are those of the speculation, so the tokens it asks
    [isTokenAllowed] about are the candidates up to the first one that is not
    rejected; and two runs on the same logits that receive the same answers
    from their parsers ask the same questions in the same order and return the
    same result. *)
Theorem candidate_queries_ranked_and_deterministic (logits : list logit) (k : Z) :
  (0 <= k)%Z ->
  (without_NaN logits ->
   exists ranking,
     ranking ≡ₚ indexed_from 0 logits /\
     StronglySorted ranks_before ranking /\
     getTopK logits k = take (Z.to_nat k) ranking) /\
  (without_NaN logits ->
   forall ranking,
     ranking ≡ₚ indexed_from 0 logits ->
     StronglySorted ranks_before ranking ->
     getTopK logits k = take (Z.to_nat k) ranking) /\
  (forall (S : Type) (P : ParserOps S) (w : World S) (inputIds : list nat),
     speculationDepth (this w) = k ->
     speculation P logits (getTopK logits k) (parser w)
       (calls_since w (after (process P inputIds logits) w))
       (fst (process P inputIds logits w))
       (parser (after (process P inputIds logits) w)) /\
     isTokenAllowed_queries (calls_since w (after (process P inputIds logits) w))
       `prefix_of` (tokenId <$> getTopK logits k)) /\
  (forall (S1 S2 : Type) (P1 : ParserOps S1) (P2 : ParserOps S2)
          (w1 : World S1) (w2 : World S2) (ids1 ids2 : list nat),
     speculationDepth (this w1) = k ->
     speculationDepth (this w2) = k ->
     answer_of <$> calls_since w1 (after (process P1 ids1 logits) w1) =
     answer_of <$> calls_since w2 (after (process P2 ids2 logits) w2) ->
     query_of <$> calls_since w1 (after (process P1 ids1 logits) w1) =
     query_of <$> calls_since w2 (after (process P2 ids2 logits) w2) /\
     fst (process P1 ids1 logits w1) = fst (process P2 ids2 logits w2)).
Proof.
  intros Hk. split; [|split; [|split]].
  - intros Hn. exists (sort by_logit_desc (indexed_from 0 logits)).
    split; [apply sort_Permutation|].
    split; [by apply sort_indexed_ranked | by apply getTopK_take].
  - intros Hn ranking Hp Hs.
    rewrite (sort_is_the_ranking logits ranking Hn Hp Hs).
    by apply getTopK_take.
  - intros S P w inputIds <-. unfold after. split.
    + apply process_speculation.
    + destruct (process_frame P inputIds logits w)
        as (_ & _ & evs & Hc & _ & Hq & _).
      by rewrite (calls_since_app _ _ _ Hc).
  - intros S1 S2 P1 P2 w1 w2 ids1 ids2 E1 E2. unfold after.
    rewrite !process_unfold, E1, E2.
    destruct (debug_log_spec (S:=S1) (LogTopK k (getTopK logits k)) w1) as [o1 ->].
    destruct (debug_log_spec (S:=S2) (LogTopK k (getTopK logits k)) w2) as [o2 ->].
    simpl. intros Ha.
    match goal with |- context [process_from P1 logits ?l ?wa] =>
      match goal with |- context [process_from P2 logits l ?wb] =>
        destruct (process_from_deterministic P1 P2 logits l wa wb) as [Hq Hr]
      end end.
    { exact Ha. }
    split; [|exact Hr].
    unfold calls_since in *. simpl in Hq. by rewrite Hq.
Qed.

(** ** The history *)

Section History.
Context {S : Type} (P : ParserOps S).

Lemma call_frame {A} (op : S -> result A * S) (ev : result A -> event) (w : World S) :
  heap (snd (call op ev w)) = heap w /\ this (snd (call op ev w)) = this w.
Proof. unfold call. by destruct (op (parser w)). Qed.

Lemma onToken_history (t : nat) (w : World S) :
  this (after (onToken P t) w) = this w /\
  history (after (onToken P t) w) = (fun xs => xs ++ [t]) <$> history w.
Proof.
  unfold after, history, onToken, mbind, M_bind, get_this, push, call. simpl.
  destruct (advance P t (parser w)) as [[[]|e] s']; simpl.
  - match goal with |- context [debug_log ?l ?w0] =>
      destruct (debug_log_spec (S:=S) l w0) as [out ->] end. simpl.
    split; [done|]. apply lookup_alter_eq.
  - split; [done|]. apply lookup_alter_eq.
Qed.

Lemma getGeneratedTokens_spec (w : World S) :
  getGeneratedTokens w =
  (Ok (fresh (dom (heap w))),
   set_heap (<[fresh (dom (heap w)) := default [] (history w)]> (heap w)) w).
Proof. done. Qed.

Lemma fresh_not_history (w : World S) :
  is_Some (history w) -> fresh (dom (heap w)) <> generatedTokens (this w).
Proof.
  intros Hs E. apply (is_fresh (dom (heap w))). rewrite E.
  by apply elem_of_dom.
Qed.

Lemma getGeneratedTokens_history (w : World S) :
  is_Some (history w) ->
  history (after getGeneratedTokens w) = history w.
Proof.
  intros Hs. unfold after. rewrite getGeneratedTokens_spec. unfold history. simpl.
  apply lookup_insert_ne. by apply fresh_not_history.
Qed.

Lemma reset_processor_history (w : World S) :
  history (after (reset_processor P) w) = Some [].
Proof.
  unfold after, history, reset_processor, mbind, M_bind, alloc, call. simpl.
  destruct (reset P (parser w)) as [[[]|e] s']; simpl; apply lookup_insert_eq.
Qed.

Lemma new_processor_history (s : S) (options : ProcessorOptions)
    (h : gmap positive (list nat)) :
  history (new_GuidanceLogitsProcessor s options h) = Some [].
Proof. unfold history. simpl. apply lookup_insert_eq. Qed.

(** Between two resets the history is the ids given to [onToken]. *)
Lemma host_run_history (cs : list host_call) (w : World S) (xs : list nat) :
  history w = Some xs ->
  history (host_run P cs w) = Some (xs ++ tokens_passed cs).
Proof.
  revert w xs. induction cs as [|c cs IH]; intros w xs Hw; simpl.
  { by rewrite app_nil_r. }
  destruct c as [t|inputIds logits| |]; simpl.
  - rewrite (IH _ (xs ++ [t])), <- ?app_assoc; [done|].
    destruct (onToken_history t w) as [_ ->]. by rewrite Hw.
  - apply IH.
    unfold after, history.
    destruct (process_frame P inputIds logits w) as (-> & -> & _). done.
  - apply IH. unfold after, history, canStop.
    destruct (call_frame (isComplete P) EIsComplete w) as [-> ->]. done.
  - apply IH. rewrite getGeneratedTokens_history; [done | by rewrite Hw].
Qed.

Lemma getGeneratedTokens_returns (w : World S) (xs : list nat) :
  history w = Some xs ->
  exists arr w',
    getGeneratedTokens w = (Ok arr, w') /\ heap w' !! arr = Some xs.
Proof.
  intros Hw. rewrite getGeneratedTokens_spec. eexists _, _.
  split; [done|]. simpl. rewrite Hw. apply lookup_insert_eq.
Qed.
End History.

Lemma tokens_passed_onTokens (ts : list nat) :
  tokens_passed (HostOnToken <$> ts) = ts.
Proof.
  induction ts as [|t ts IH]; [done|].
  unfold tokens_passed in *. rewrite fmap_cons. cbn [omap list_omap].
  by f_equal.
Qed.

(** C8. After any host calls other than [reset] made since a [reset], or
    since construction, [getGeneratedTokens] returns an array that holds
    exactly the ids passed to [onToken], in call order, whatever the parser
    answers or throws; right after [reset] the array it returns is empty. *)
Theorem generated_tokens_are_onToken_arguments {S} (P : ParserOps S)
    (cs : list host_call) :
  (forall w0 : World S, exists arr w',
     getGeneratedTokens (host_run P cs (after (reset_processor P) w0)) = (Ok arr, w') /\
     heap w' !! arr = Some (tokens_passed cs)) /\
  (forall (s : S) options h, exists arr w',
     getGeneratedTokens (host_run P cs (new_GuidanceLogitsProcessor s options h))
       = (Ok arr, w') /\
     heap w' !! arr = Some (tokens_passed cs)) /\
  (forall w0 : World S, exists arr w',
     getGeneratedTokens (after (reset_processor P) w0) = (Ok arr, w') /\
     heap w' !! arr = Some []) /\
  (forall ts, tokens_passed (HostOnToken <$> ts) = ts).
Proof.
  repeat split.
  - intros w0. apply getGeneratedTokens_returns.
    apply (host_run_history P cs _ []), reset_processor_history.
  - intros s options h. apply getGeneratedTokens_returns.
    apply (host_run_history P cs _ []), new_processor_history.
  - intros w0. apply getGeneratedTokens_returns, reset_processor_history.
  - apply tokens_passed_onTokens.
Qed.

(** C9. The array [getGeneratedTokens] returns is not the array of the
    history: whatever the caller then writes into it, the history is
    unchanged, and a second [getGeneratedTokens] returns an array with the
    same elements as the first one had when it was returned. *)
Theorem getGeneratedTokens_returns_copy {S} (w w1 : World S) (arr : positive)
    (ys : list nat) :
  is_Some (history w) ->
  getGeneratedTokens w = (Ok arr, w1) ->
  arr <> generatedTokens (this w) /\
  heap w1 !! arr = history w /\
  history (caller_mutates arr ys w1) = history w /\
  exists arr' w2,
    getGeneratedTokens (caller_mutates arr ys w1) = (Ok arr', w2) /\
    heap w2 !! arr' = history w.
Proof.
  intros Hs. rewrite getGeneratedTokens_spec. intros [= <- <-].
  pose proof (fresh_not_history w Hs) as Hne.
  destruct Hs as [xs Hxs].
  assert (Hh : history (caller_mutates (fresh (dom (heap w))) ys
      (set_heap (<[fresh (dom (heap w)) := default [] (history w)]> (heap w)) w))
    = history w).
  { unfold history. simpl. by rewrite !lookup_insert_ne. }
  split; [done|]. split.
  { simpl. rewrite Hxs. apply lookup_insert_eq. }
  split; [done|].
  destruct (getGeneratedTokens_returns _ xs (eq_trans Hh Hxs)) as (arr' & w2 & H1 & H2).
  exists arr', w2. split; [exact H1 | by rewrite Hxs].
Qed.

(** ** The grammar translation *)

(** C6, as stated, fails for the pattern-based grammar: the element of the
    [grammars] list carries the pattern under the key [rx], and has no field
    named [regex]. *)
Lemma regex_grammar_key_is_rx :
  exists fields,
    convertGrammar (RegexGrammar "[0-9]+")
      = JObject [("grammars", JArray [JObject fields])] /\
    get_field "regex" fields = None /\
    get_field "rx" fields = Some (JString "[0-9]+").
Proof. eexists. split; [reflexivity|]. split; reflexivity. Qed.

(** C6, amended.  [convertGrammar] is a total function on the three grammar
    tags; its result is an object whose [grammars] field is a list of one
    object: [{json_schema: schema}] for a json_schema grammar,
    [{rx: pattern}] for a regex grammar, and [{lark: grammar, start: s}] for a
    lark grammar, where [s] is the start symbol, or "start" when it is
    omitted. *)
Theorem convertGrammar_shapes (g : Grammar) :
  grammar_type g ∈ ["json_schema"; "regex"; "lark"] /\
  exists fields,
    convertGrammar g = JObject [("grammars", JArray [JObject fields])] /\
    match g with
    | JsonSchemaGrammar schema =>
        get_field "json_schema" fields = Some schema /\ length fields = 1
    | RegexGrammar pattern =>
        get_field "rx" fields = Some (JString pattern) /\ length fields = 1
    | LarkGrammar grammar startSymbol =>
        get_field "lark" fields = Some (JString grammar) /\
        get_field "start" fields
          = Some (JString (match startSymbol with Some s => s | None => "start" end)) /\
        length fields = 2
    end.
Proof.
  destruct g as [schema|pattern|grammar [s|]]; (split; [set_solver|]);
    eexists; (split; [reflexivity|]); repeat split.
Qed.

(** ** The tokenizer bridge *)

(** C4, as stated, fails on the fetched-document path: a descriptor with
    merge rules that names its type "BPE" normalises to the model type "BPE",
    which is neither "bpe" nor "unknown". *)
Lemma parsed_model_type_is_the_declared_type :
  exists d,
    parseTokenizerJson bpe_descriptor = Ok d /\
    td_merges d = ["h e"; "l l"; "o w"] /\
    td_model_type d = "BPE" /\
    td_model_type d <> model_type_by_merges (Some (td_merges d)).
Proof. eexists. split; [reflexivity|]. repeat split. discriminate. Qed.

(** C4, amended.  A tokenizer object normalises to the model type "bpe"
    exactly when its merge rules are present and non-empty, and to "unknown"
    otherwise; a descriptor document normalises to the type its model
    declares, and to "unknown" when it declares none, whatever its merge
    rules. *)
Theorem model_type_detection :
  (forall tokenizer d,
     extractTokenizerData tokenizer = Ok d ->
     td_model_type d = model_type_by_merges (model tokenizer ≫= model_merges) /\
     (td_model_type d = "bpe" <-> td_merges d <> [])) /\
  (forall (json : document) d,
     parseTokenizerJson json = Ok d ->
     exists data m, json = DocObject data /\ json_model data = Some m /\
       td_model_type d = default "unknown" (json_type m)).
Proof.
  split.
  - intros tokenizer d H.
    assert (Hd : td_model_type d = detectModelType tokenizer /\
                 td_merges d = default [] (model tokenizer ≫= model_merges)).
    { unfold extractTokenizerData in H.
      repeat match type of H with
             | match ?x with _ => _ end = _ => destruct x
             end; inversion H; done. }
    destruct Hd as [-> ->]. unfold detectModelType, model_type_by_merges.
    destruct (model tokenizer ≫= model_merges) as [[|m ms]|]; simpl;
      (split; [done|]); split; done.
  - intros [| |data] d H; [done..|]. simpl in H.
    destruct (json_model data) as [m|] eqn:Em; [|done].
    destruct (json_vocab m); [|done].
    inversion H. by exists data, m.
Qed.

(** C5. [extractTokenizerData] takes the vocabulary from [getVocab] when the
    tokenizer has it, else from [model.vocab], else from [vocab]; it throws
    exactly when none of the three is present, and what it throws is the
    error that says no vocabulary could be extracted. *)
Theorem vocabulary_resolution_order (tokenizer : TransformersTokenizer) :
  (forall v, getVocab tokenizer = Some v ->
     vocabulary_of (extractTokenizerData tokenizer) = Some v) /\
  (forall v, getVocab tokenizer = None ->
     model tokenizer ≫= model_vocab = Some v ->
     vocabulary_of (extractTokenizerData tokenizer) = Some (mapToRecord v)) /\
  (forall v, getVocab tokenizer = None ->
     model tokenizer ≫= model_vocab = None ->
     vocab tokenizer = Some v ->
     vocabulary_of (extractTokenizerData tokenizer) = Some (mapToRecord v)) /\
  (throws (extractTokenizerData tokenizer) <->
     getVocab tokenizer = None /\
     model tokenizer ≫= model_vocab = None /\
     vocab tokenizer = None) /\
  (throws (extractTokenizerData tokenizer) ->
     extractTokenizerData tokenizer = Throw vocabulary_error).
Proof.
  unfold extractTokenizerData, throws.
  destruct (getVocab tokenizer) as [g|];
    [|destruct (model tokenizer ≫= model_vocab) as [mv|];
      [|destruct (vocab tokenizer) as [tv|]]];
    simpl; repeat split; try congruence; eauto;
    try (intros [e He]; congruence); try (intros (? & ? & ?); congruence);
    match goal with H : exists e, _ = Throw e |- _ => destruct H; congruence end.
Qed.

(** C7. Each flag of an added-token entry is kept when the entry supplies it
    and defaulted when it does not: [single_word], [lstrip], [rstrip] and
    [special] to false, [normalized] to true; an entry with no flag normalises
    to (false, false, false, true, false).  Both the extraction of a tokenizer
    object and the parsing of a descriptor document normalise every entry of
    [added_tokens] so. *)
Theorem added_token_flags_defaulted (token : AddedTokenEntry) :
  (forall t, t = extract_added_token token \/ t = parse_added_token token ->
     at_id t = id token /\
     at_content t = content token /\
     defaulted false (single_word token) (at_single_word t) /\
     defaulted false (lstrip token) (at_lstrip t) /\
     defaulted false (rstrip token) (at_rstrip t) /\
     defaulted true (normalized token) (at_normalized t) /\
     defaulted false (special token) (at_special t) /\
     (single_word token = None -> lstrip token = None -> rstrip token = None ->
      normalized token = None -> special token = None ->
      flags t = (false, false, false, true, false))) /\
  (forall tokenizer d,
     extractTokenizerData tokenizer = Ok d ->
     td_added_tokens d
       = Some (map extract_added_token (default [] (added_tokens tokenizer)))) /\
  (forall (json : document) d,
     parseTokenizerJson json = Ok d ->
     exists data, json = DocObject data /\
       td_added_tokens d
       = option_map (map parse_added_token) (json_added_tokens data)).
Proof.
  split; [|split].
  - intros t [-> | ->]; simpl; unfold defaulted, flags; simpl;
      (repeat split; try by (destruct token as [? ? [] [] [] [] []]));
      intros -> -> -> -> ->; done.
  - intros tokenizer d H. unfold extractTokenizerData in H.
    repeat match type of H with
           | match ?x with _ => _ end = _ => destruct x
           end; inversion H; done.
  - intros [| |data] d H; [done..|]. simpl in H. exists data. split; [done|].
    destruct (json_model data) as [m|]; [|done].
    destruct (json_vocab m); [|done].
    inversion H. simpl. by destruct (json_added_tokens data).
Qed.

(** ** The parser class as the processor's parser *)

(** When the two queries of the WASM module leave its state alone, the read
    operations of [GuidanceParser] leave the parser alone, initialised or
    not. *)
Lemma GuidanceParser_reads_are_pure {W : Type}
    (is_token_allowed : nat -> W -> result bool * W)
    (get_token_mask : W -> result (list Z) * W)
    (wasm_advance : nat -> W -> result unit * W)
    (is_complete : W -> result bool * W)
    (wasm_reset : string -> W -> result unit * W)
    (JSON_stringify : json -> string) :
  (forall t w, snd (is_token_allowed t w) = w) ->
  (forall w, snd (get_token_mask w) = w) ->
  reads_are_pure (GuidanceParser_ops is_token_allowed get_token_mask wasm_advance
                    is_complete wasm_reset JSON_stringify).
Proof.
  intros Ha Hm. split; simpl.
  - intros t [w i]. unfold parser_isTokenAllowed, guarded, ensureInitialized. simpl.
    destruct i; [|done]. specialize (Ha t w).
    destruct (is_token_allowed t w) as [b w']. simpl in *. by subst.
  - intros [w i]. unfold parser_getTokenMask, guarded, ensureInitialized. simpl.
    destruct i; [|done]. specialize (Hm w).
    destruct (get_token_mask w) as [b w']. simpl in *. by subst.
Qed.

(** ** The tests of the repository, on short vectors *)

Example getTopK_ties_by_id :
  tokenId <$> getTopK [Fin 1; Fin 7; NegInf; Fin 7; PosInf; NegInf; PosInf] 5
  = [4; 6; 1; 3; 0].
Proof. reflexivity. Qed.

Example process_second_candidate_allowed :
  fst (process (mockParser (fun t => Nat.eqb t 3) []) []
         [Fin (-10); Fin 10; Fin 3; Fin 5; Fin (-10)] (test_world []))
  = Ok [NegInf; NegInf; NegInf; Fin 5; NegInf].
Proof. reflexivity. Qed.

Example process_full_mask :
  fst (process (mockParser (fun _ => false) [0; 0; 1; 0; 0; 0]%Z) []
         [Fin 1; Fin 10; Fin 2; Fin 1; Fin 1; Fin 1] (test_world []))
  = Ok [NegInf; NegInf; Fin 2; NegInf; NegInf; NegInf].
Proof. reflexivity. Qed.

Example onToken_then_getGeneratedTokens :
  let P := mockParser (fun _ => true) [] in
  let w := host_run P [HostOnToken 1; HostOnToken 2; HostOnToken 3] (test_world []) in
  history w = Some [1; 2; 3] /\ parser w = [1; 2; 3].
Proof. split; reflexivity. Qed.

Example extract_test_tokenizer :
  exists d,
    extractTokenizerData test_tokenizer = Ok d /\
    td_merges d = ["h e"; "l l"; "o w"] /\
    td_model_type d = "bpe" /\
    (flags <$> default [] (td_added_tokens d)) = [(false, false, false, true, true)].
Proof. eexists. split; [reflexivity|]. repeat split. Qed.

Example mapToRecord_of_a_Map :
  mapToRecord (VocabMap [("alpha", 0); ("beta", 1)])
  = mapToRecord (VocabRecord {[ "alpha" := 0; "beta" := 1 ]}).
Proof. by vm_compute. Qed.

(** ** The theorems at concrete inputs *)

(** The fast path on four logits where tokens 1 and 2 tie for the top: token 1
    wins. *)
Lemma process_top_token_allowed_witness :
  without_NaN [Fin 1; Fin 7; Fin 7; NegInf] /\
  top_ranked [Fin 1; Fin 7; Fin 7; NegInf] 1 /\
  exists masked w',
    process (mockParser (fun _ => true) []) [] [Fin 1; Fin 7; Fin 7; NegInf]
      (test_world []) = (Ok masked, w') /\
    length masked = 4 /\
    masked !! 1 = Some (Fin 7) /\
    (forall i, i < 4 -> i <> 1 -> masked !! i = Some NegInf) /\
    calls_since (test_world []) w' = [EIsTokenAllowed 1 (Ok true)] /\
    filter is_getTokenMask (calls_since (test_world []) w') = [].
Proof.
  assert (Hn : without_NaN [Fin 1; Fin 7; Fin 7; NegInf]).
  { unfold without_NaN. repeat constructor; discriminate. }
  assert (Htop : top_ranked [Fin 1; Fin 7; Fin 7; NegInf] 1).
  { exists (Fin 7). split; [reflexivity|]. split; [discriminate|]. intros j u H.
    destruct j as [|[|[|[|j]]]]; simpl in H; inversion H; subst; simpl;
      (split; [lia || tauto | intros; first [lia | discriminate]]). }
  split; [exact Hn|]. split; [exact Htop|].
  apply (process_top_token_allowed (mockParser (fun _ => true) []) (test_world [])
           [] [Fin 1; Fin 7; Fin 7; NegInf] 1 []).
  - exact Hn.
  - simpl. lia.
  - exact Htop.
  - reflexivity.
Defined.

(** With a NaN among the logits the comparator of [getTopK] answers NaN for
    every pair that involves it, the sort leaves the three candidates in index
    order, and the fast path keeps token 0 although token 2 holds the highest
    logit and is allowed. *)
Lemma NaN_hides_the_top_ranked_token :
  let logits := [Fin 1; NaN; Fin 2] in
  let P := mockParser (fun _ => true) [] in
  (1 <= speculationDepth (this (test_world [])))%Z /\
  top_ranked logits 2 /\
  isTokenAllowed P 2 (parser (test_world [])) = (Ok true, []) /\
  fst (process P [] logits (test_world [])) = Ok [Fin 1; NegInf; NegInf].
Proof.
  split; [simpl; lia|]. split; [|split; reflexivity].
  exists (Fin 2). split; [reflexivity|]. split; [discriminate|]. intros j u H.
  destruct j as [|[|[|j]]]; simpl in H; inversion H; subst; simpl;
    (split; [lia || tauto | intros; first [lia | discriminate]]).
Qed.


(** With depth 3 the candidates of that vector are 1, 2, 0, and a parser that
    allows token 2 only is asked about 1, then about 2, and no further. *)
Lemma candidate_queries_ranked_and_deterministic_witness :
  let logits := [Fin 1; Fin 7; Fin 7; NegInf] in
  let P := mockParser (fun t => Nat.eqb t 2) [] in
  let w := test_world [] in
  (exists ranking,
     ranking ≡ₚ indexed_from 0 logits /\
     StronglySorted ranks_before ranking /\
     getTopK logits 3 = take 3 ranking) /\
  speculation P logits (getTopK logits 3) (parser w)
    [EIsTokenAllowed 1 (Ok false); EIsTokenAllowed 2 (Ok true)]
    (Ok [NegInf; NegInf; Fin 7; NegInf]) [] /\
  isTokenAllowed_queries (calls_since w (after (process P [] logits) w))
    `prefix_of` [1; 2; 0].
Proof.
  intros logits P w.
  destruct (candidate_queries_ranked_and_deterministic logits 3 ltac:(lia))
    as (Hrank & _ & Hq & _).
  split; [apply Hrank; unfold without_NaN; repeat constructor; discriminate|].
  exact (Hq (list nat) P w [] eq_refl).
Defined.

(** With a NaN among the logits the candidates come in index order: token 0,
    whose logit is 1, is asked about before token 2, whose logit is 2, and no
    ranking by descending logit begins with these candidates. *)
Lemma NaN_breaks_the_candidate_order :
  let logits := [Fin 1; NaN; Fin 2] in
  let P := mockParser (fun _ => false) [1; 1; 1]%Z in
  let w := test_world [] in
  isTokenAllowed_queries (calls_since w (after (process P [] logits) w))
    = [0; 1; 2] /\
  logits !! 0 = Some (Fin 1) /\
  logits !! 2 = Some (Fin 2) /\
  logit_lt (Fin 1) (Fin 2) /\
  ~ StronglySorted ranks_before (getTopK logits 3).
Proof.
  intros logits P w.
  split; [reflexivity|]. split; [reflexivity|]. split; [reflexivity|].
  split; [simpl; lia|].
  intros H.
  assert (E : getTopK logits 3 =
    [ {| tokenId := 0; logit_of := Fin 1 |}; {| tokenId := 1; logit_of := NaN |};
      {| tokenId := 2; logit_of := Fin 2 |} ]) by reflexivity.
  rewrite E in H. inversion H as [|? ? _ Hf]. inversion Hf as [|? ? Hr _].
  destruct Hr as [Hr|[Hr _]]; [exact Hr | discriminate].
Qed.

(** After [onToken(4)] and [onToken(2)], overwriting the returned array does
    not reach the history. *)
Lemma getGeneratedTokens_returns_copy_witness :
  let P := mockParser (fun _ => true) [] in
  let w := host_run P [HostOnToken 4; HostOnToken 2] (test_world []) in
  let arr := fst (getGeneratedTokens w) in
  let w1 := snd (getGeneratedTokens w) in
  history w = Some [4; 2] /\
  history (caller_mutates 2%positive [9; 9; 9] w1) = Some [4; 2] /\
  exists arr' w2,
    getGeneratedTokens (caller_mutates 2%positive [9; 9; 9] w1) = (Ok arr', w2) /\
    heap w2 !! arr' = Some [4; 2].
Proof.
  intros P w arr w1.
  assert (Hw : history w = Some [4; 2]) by reflexivity.
  destruct (getGeneratedTokens_returns_copy w w1 2%positive [9; 9; 9])
    as (_ & _ & Hh & Hcopy).
  - rewrite Hw. by eexists.
  - reflexivity.
  - rewrite Hw in Hh, Hcopy. auto.
Defined.

(** A slow-path [process] after [onToken(4)]: the history and the session of
    the test parser stay as they were. *)
Lemma process_leaves_history_and_session_witness :
  let P := mockParser (fun _ => false) [0; 1; 0; 1]%Z in
  let w := host_run P [HostOnToken 4] (test_world []) in
  let w' := after (process P [] [Fin 1; Fin 7; Fin 7; NegInf]) w in
  heap w' = heap w /\ this w' = this w /\ history w' = history w /\
  forallb is_read (calls_since w w') = true /\ parser w' = parser w.
Proof.
  intros P w w'.
  destruct (process_leaves_history_and_session P w [] [Fin 1; Fin 7; Fin 7; NegInf])
    as (Hh & Ht & Hhist & Hr & Hp).
  assert (Hpure : reads_are_pure P) by (split; intros; reflexivity).
  exact (conj Hh (conj Ht (conj Hhist (conj Hr (Hp Hpure))))).
Defined.

(** The test tokenizer is detected as "bpe"; the descriptor keeps the type it
    declares. *)
Lemma model_type_detection_witness :
  (exists d, extractTokenizerData test_tokenizer = Ok d /\ td_model_type d = "bpe") /\
  (exists d, parseTokenizerJson bpe_descriptor = Ok d /\ td_model_type d = "BPE").
Proof.
  destruct model_type_detection as [He Hp]. split.
  - destruct (extractTokenizerData test_tokenizer) as [d|e] eqn:E; [|discriminate E].
    exists d. split; [reflexivity|].
    destruct (He test_tokenizer d E) as [-> _]. reflexivity.
  - destruct (parseTokenizerJson bpe_descriptor) as [d|e] eqn:E; [|discriminate E].
    exists d. split; [reflexivity|].
    destruct (Hp bpe_descriptor d E) as (data & m & [= <-] & Hm & ->).
    injection Hm as <-. reflexivity.
Defined.

(** The test tokenizer has [getVocab], which wins; a tokenizer with no source
    at all throws. *)
Lemma vocabulary_resolution_order_witness :
  vocabulary_of (extractTokenizerData test_tokenizer)
    = Some {[ "hello" := 0; "world" := 1; "!" := 2 ]} /\
  extractTokenizerData
    {| model := None; vocab := None; added_tokens := None; getVocab := None |}
    = Throw vocabulary_error.
Proof.
  split.
  - apply (proj1 (vocabulary_resolution_order test_tokenizer)). reflexivity.
  - apply (proj2 (proj2 (proj2 (proj2 (vocabulary_resolution_order
      {| model := None; vocab := None; added_tokens := None; getVocab := None |}))))).
    apply (proj1 (proj2 (proj2 (proj2 (vocabulary_resolution_order
      {| model := None; vocab := None; added_tokens := None; getVocab := None |}))))).
    repeat split.
Defined.

(** The entry of the test suite that supplies [id] and [content] only. *)
Lemma added_token_flags_defaulted_witness :
  let token := {| id := 50; content := "<pad>"; single_word := None; lstrip := None;
                  rstrip := None; normalized := None; special := None |} in
  flags (extract_added_token token) = (false, false, false, true, false) /\
  flags (parse_added_token token) = (false, false, false, true, false).
Proof.
  intros token.
  destruct (added_token_flags_defaulted token) as (H & _ & _). split.
  - destruct (H (extract_added_token token) (or_introl eq_refl))
      as (_ & _ & _ & _ & _ & _ & _ & Hf). by apply Hf.
  - destruct (H (parse_added_token token) (or_intror eq_refl))
      as (_ & _ & _ & _ & _ & _ & _ & Hf). by apply Hf.
Defined.

(** * Further properties of the code *)

(** ** [getTopK], [maskAllExcept], [applyBitmask] *)

Lemma slice0_is_take {A} (k : Z) (l : list A) :
  exists m, slice0 k l = take m l /\
    ((0 <= k)%Z -> m = Z.to_nat k) /\
    ((k < 0)%Z -> m = Z.to_nat (Z.of_nat (length l) + k)).
Proof.
  unfold slice0. destruct (Z.ltb_spec k 0).
  - eexists. split; [reflexivity|]. split; [lia|]. intros _. lia.
  - eexists. split; [reflexivity|]. split; [done | lia].
Qed.

Lemma indexed_from_NoDup (i : nat) (logits : list logit) :
  NoDup (tokenId <$> indexed_from i logits).
Proof.
  revert i. induction logits as [|v l IH]; intros i; simpl; [constructor|].
  constructor; [|apply IH].
  intros Hin. apply list_elem_of_fmap in Hin as (c & Hc & Hin).
  pose proof (indexed_from_ids (S i) l) as Hall.
  rewrite Forall_forall in Hall. specialize (Hall c Hin). simpl in Hc. lia.
Qed.

(** The candidates are distinct indices of the vector, each with the logit
    stored at it, whatever the depth; a depth [k >= 0] gives [min k n] of
    them, and a negative depth, which [slice] counts from the end, gives
    [n + k] of them (none when that is negative). *)
Theorem getTopK_candidates (logits : list logit) (k : Z) :
  (forall c, c ∈ getTopK logits k -> logits !! tokenId c = Some (logit_of c)) /\
  NoDup (tokenId <$> getTopK logits k) /\
  ((0 <= k)%Z -> length (getTopK logits k) = Z.to_nat k `min` length logits) /\
  ((k < 0)%Z -> length (getTopK logits k) = Z.to_nat (Z.of_nat (length logits) + k)).
Proof.
  unfold getTopK.
  destruct (slice0_is_take k (sort by_logit_desc (indexed_from 0 logits)))
    as (m & -> & Hpos & Hneg).
  pose proof (sort_Permutation by_logit_desc (indexed_from 0 logits)) as Hp.
  assert (Hlen : length (sort by_logit_desc (indexed_from 0 logits)) = length logits).
  { by rewrite Hp, length_indexed_from. }
  split; [|split; [|split]].
  - intros c Hc. apply elem_of_take in Hc as (i & Hc & _).
    apply list_elem_of_lookup_2 in Hc. rewrite Hp in Hc.
    apply elem_of_indexed_from in Hc as [_ Hc]. by rewrite Nat.sub_0_r in Hc.
  - rewrite fmap_take. eapply sublist_NoDup; [|apply sublist_take].
    rewrite Hp. apply indexed_from_NoDup.
  - intros Hk. rewrite length_take, Hlen, (Hpos Hk). done.
  - intros Hk. rewrite length_take, Hlen, (Hneg Hk).
    rewrite Hlen. lia.
Qed.

(** On a vector without NaN every candidate ranks before every index that is
    not a candidate. *)
Theorem getTopK_dominates (logits : list logit) (k : Z) (c d : candidate) :
  without_NaN logits ->
  c ∈ getTopK logits k ->
  d ∈ indexed_from 0 logits ->
  d ∉ getTopK logits k ->
  ranks_before c d.
Proof.
  intros Hn. unfold getTopK.
  destruct (slice0_is_take k (sort by_logit_desc (indexed_from 0 logits)))
    as (m & -> & _).
  intros Hc Hd Hnd.
  pose proof (sort_indexed_ranked 0 logits Hn) as Hs.
  rewrite <- (take_drop m (sort by_logit_desc (indexed_from 0 logits))) in Hs.
  eapply StronglySorted_app_1_elem_of; [exact Hs | exact Hc |].
  rewrite <- (sort_Permutation by_logit_desc) in Hd.
  rewrite <- (take_drop m (sort by_logit_desc (indexed_from 0 logits))) in Hd.
  apply elem_of_app in Hd as [Hd|Hd]; [contradiction | exact Hd].
Qed.

(** With NaN among the logits the comparator answers NaN, which counts as
    equal, for every pair that involves one, and the order is what the
    insertion sort makes of these answers: in the first vector the NaN at
    index 0 stays first, the one at index 3 ends up last, and the numbers come
    between them in descending order; in the second nothing moves. *)
Example getTopK_with_NaN :
  tokenId <$> getTopK [NaN; Fin 1; Fin 2; NaN; Fin 3] 5 = [0; 4; 2; 1; 3] /\
  tokenId <$> getTopK [Fin 1; NaN; Fin 2] 3 = [0; 1; 2].
Proof. split; reflexivity. Qed.

(** A token outside the vector leaves nothing: the write past the end of the
    typed array is ignored, and every entry is negative infinity. *)
Theorem maskAllExcept_out_of_range (logits : list logit) (t : nat) :
  length logits <= t ->
  maskAllExcept logits t = replicate (length logits) NegInf.
Proof.
  intros Ht. unfold maskAllExcept.
  by rewrite (proj2 (lookup_ge_None logits t) Ht).
Qed.

Lemma masked_at_idemp (mask : list Z) (i : nat) (x : logit) :
  masked_at mask i (masked_at mask i x) = masked_at mask i x.
Proof. unfold masked_at. by destruct (mask !! i) as [[| |]|]. Qed.

Lemma masked_at_comm (m1 m2 : list Z) (i : nat) (x : logit) :
  masked_at m1 i (masked_at m2 i x) = masked_at m2 i (masked_at m1 i x).
Proof.
  unfold masked_at.
  by destruct (m1 !! i) as [[| |]|], (m2 !! i) as [[| |]|].
Qed.

(** Masking twice with one mask is masking once, and two masks can be applied
    in either order. *)
Theorem applyBitmask_idempotent_commutes (logits : list logit) (m1 m2 : list Z) :
  applyBitmask (applyBitmask logits m1) m1 = applyBitmask logits m1 /\
  applyBitmask (applyBitmask logits m1) m2 = applyBitmask (applyBitmask logits m2) m1.
Proof.
  split; apply list_eq; intros i; rewrite !applyBitmask_lookup;
    destruct (logits !! i); simpl; f_equal.
  - apply masked_at_idemp.
  - symmetry. apply masked_at_comm.
Qed.

(** Only an entry 0 of the mask changes a logit: an index past the end of the
    mask, or whose entry is any other byte, keeps its value, and the vector
    keeps its length however long the mask is. *)
Theorem applyBitmask_changes_only_zeros (logits : list logit) (mask : list Z) :
  length (applyBitmask logits mask) = length logits /\
  (forall i, mask !! i <> Some 0%Z -> applyBitmask logits mask !! i = logits !! i) /\
  (forall i, length mask <= i -> applyBitmask logits mask !! i = logits !! i).
Proof.
  split; [apply length_applyBitmask|].
  assert (H : forall i, mask !! i <> Some 0%Z ->
                        applyBitmask logits mask !! i = logits !! i).
  { intros i Hi. rewrite applyBitmask_lookup.
    destruct (logits !! i); [|done]. simpl. f_equal. unfold masked_at.
    destruct (mask !! i) as [[| |]|]; congruence. }
  split; [exact H|].
  intros i Hi. apply H. by rewrite (proj2 (lookup_ge_None mask i) Hi).
Qed.

(** ** [process], candidate by candidate *)

Lemma getTopK_lookup (logits : list logit) (k : Z) (c : candidate) :
  c ∈ getTopK logits k -> logits !! tokenId c = Some (logit_of c).
Proof.
  unfold getTopK.
  destruct (slice0_is_take k (sort by_logit_desc (indexed_from 0 logits)))
    as (m & -> & _).
  intros Hc. apply elem_of_take in Hc as (i & Hc & _).
  apply list_elem_of_lookup_2 in Hc.
  rewrite (sort_Permutation by_logit_desc) in Hc.
  apply elem_of_indexed_from in Hc as [_ Hc]. by rewrite Nat.sub_0_r in Hc.
Qed.

Section ProcessSteps.
Context {S : Type} (P : ParserOps S).

(** Candidates that are rejected only move the loop on. *)
Lemma process_from_skip (logits : list logit) (pre rest : list candidate)
    (w : World S) (s1 : S) :
  rejects P (tokenId <$> pre) (parser w) s1 ->
  process_from P logits (pre ++ rest) w =
  process_from P logits rest
    {| heap := heap w; this := this w; parser := s1;
       calls := calls w ++ rejections pre; console := console w |}.
Proof.
  revert w. induction pre as [|c pre IH]; intros w Hrej.
  - inversion Hrej; subst. simpl. rewrite app_nil_r. by destruct w.
  - simpl in Hrej. inversion Hrej as [|? ? ? sa ? Ha Hrest]; subst.
    change ((c :: pre) ++ rest) with (c :: (pre ++ rest)).
    rewrite process_from_cons, Ha. cbv beta iota zeta.
    rewrite IH by exact Hrest. simpl. by rewrite <- app_assoc.
Qed.

(** What the loop returns is one of the two masks of the input. *)
Lemma process_from_result (logits : list logit) (topK : list candidate)
    (w : World S) (v : list logit) :
  fst (process_from P logits topK w) = Ok v ->
  (exists c, c ∈ topK /\ v = maskAllExcept logits (tokenId c)) \/
  (exists mask, v = applyBitmask logits mask).
Proof.
  revert w. induction topK as [|c rest IH]; intros w.
  - rewrite process_from_nil.
    destruct (debug_log_spec (S:=S) LogSpeculationMiss w) as [out ->]. simpl.
    destruct (getTokenMask P (parser w)) as [[mask|e] s']; simpl; [|done].
    intros [= <-]. right. eauto.
  - rewrite process_from_cons.
    destruct (isTokenAllowed P (tokenId c) (parser w)) as [[[|]|e] s'];
      cbv beta iota zeta; simpl.
    + intros [= <-]. left. exists c. split; [left | done].
    + intros H. destruct (IH _ H) as [(c' & Hc' & ->)|Hm]; [left | by right].
      exists c'. split; [by right | done].
    + done.
Qed.

(** The loop makes at most one call per candidate and one more, and asks for
    the mask at most once. *)
Lemma process_from_budget (logits : list logit) (topK : list candidate)
    (w : World S) :
  exists evs,
    calls (snd (process_from P logits topK w)) = calls w ++ evs /\
    length evs <= length topK + 1 /\
    length (filter is_getTokenMask evs) <= 1.
Proof.
  revert w. induction topK as [|c rest IH]; intros w.
  - rewrite process_from_nil.
    destruct (debug_log_spec (S:=S) LogSpeculationMiss w) as [out ->]. simpl.
    destruct (getTokenMask P (parser w)) as [[mask|e] s']; simpl;
      eexists; (split; [reflexivity|]); simpl; lia.
  - rewrite process_from_cons.
    destruct (isTokenAllowed P (tokenId c) (parser w)) as [[[|]|e] s'];
      cbv beta iota zeta.
    + match goal with |- context [debug_log ?l ?w0] =>
        destruct (debug_log_spec (S:=S) l w0) as [out ->] end. simpl.
      eexists. split; [reflexivity|]. simpl. lia.
    + match goal with |- context [process_from P logits rest ?w0] =>
        destruct (IH w0) as (evs & Hc & Hl & Hm) end.
      simpl in Hc. exists (EIsTokenAllowed (tokenId c) (Ok false) :: evs).
      split; [by rewrite Hc, <- app_assoc|]. simpl. split; [lia | exact Hm].
    + simpl. eexists. split; [reflexivity|]. simpl. lia.
Qed.
End ProcessSteps.

(** When the candidates before [c] are rejected and [c] is allowed, [process]
    returns the vector that keeps the logit of [c] alone, after asking about
    exactly those candidates, in rank order; the candidates after [c] are not
    asked about and the mask is not computed. *)
Theorem process_first_allowed_candidate {S} (P : ParserOps S) (w : World S)
    (inputIds : list nat) (logits : list logit)
    (pre post : list candidate) (c : candidate) (s1 s2 : S) :
  getTopK logits (speculationDepth (this w)) = pre ++ c :: post ->
  rejects P (tokenId <$> pre) (parser w) s1 ->
  isTokenAllowed P (tokenId c) s1 = (Ok true, s2) ->
  exists masked w',
    process P inputIds logits w = (Ok masked, w') /\
    masked !! tokenId c = Some (logit_of c) /\
    (forall i, i < length logits -> i <> tokenId c -> masked !! i = Some NegInf) /\
    parser w' = s2 /\
    calls_since w w' = rejections pre ++ [EIsTokenAllowed (tokenId c) (Ok true)].
Proof.
  intros Htop Hrej Hallowed.
  assert (Hc : logits !! tokenId c = Some (logit_of c)).
  { apply (getTopK_lookup logits (speculationDepth (this w))).
    rewrite Htop. apply elem_of_app. right. left. }
  rewrite process_unfold, Htop.
  match goal with |- context [debug_log ?l w] =>
    destruct (debug_log_spec (S:=S) l w) as [out ->] end.
  simpl. rewrite (process_from_skip P logits pre (c :: post) _ s1) by exact Hrej.
  rewrite process_from_cons. simpl. rewrite Hallowed.
  match goal with |- context [debug_log ?l ?w0] =>
    destruct (debug_log_spec (S:=S) l w0) as [out' ->] end.
  simpl. eexists _, _. split; [reflexivity|].
  assert (Hlt : tokenId c < length logits) by (by eapply lookup_lt_Some).
  split; [by rewrite maskAllExcept_winner|].
  split; [intros; by apply maskAllExcept_others|].
  split; [done|].
  apply calls_since_app. simpl. by rewrite <- app_assoc.
Qed.

(** An exception of the parser ends [process] with that exception: thrown by
    [isTokenAllowed] on a candidate, no later candidate is asked about and the
    mask is not computed; thrown by [getTokenMask] after every candidate was
    rejected, it is what [process] throws. *)
Theorem process_propagates_exceptions {S} (P : ParserOps S) (w : World S)
    (inputIds : list nat) (logits : list logit) (e : error) (s1 s2 : S) :
  (forall pre post c,
     getTopK logits (speculationDepth (this w)) = pre ++ c :: post ->
     rejects P (tokenId <$> pre) (parser w) s1 ->
     isTokenAllowed P (tokenId c) s1 = (Throw e, s2) ->
     fst (process P inputIds logits w) = Throw e /\
     calls_since w (after (process P inputIds logits) w)
       = rejections pre ++ [EIsTokenAllowed (tokenId c) (Throw e)]) /\
  (rejects P (tokenId <$> getTopK logits (speculationDepth (this w))) (parser w) s1 ->
   getTokenMask P s1 = (Throw e, s2) ->
   fst (process P inputIds logits w) = Throw e /\
   calls_since w (after (process P inputIds logits) w)
     = rejections (getTopK logits (speculationDepth (this w)))
       ++ [EGetTokenMask (Throw e)]).
Proof.
  split.
  - intros pre post c Htop Hrej Hthrow. unfold after.
    rewrite process_unfold, Htop.
    match goal with |- context [debug_log ?l w] =>
      destruct (debug_log_spec (S:=S) l w) as [out ->] end.
    simpl. rewrite (process_from_skip P logits pre (c :: post) _ s1) by exact Hrej.
    rewrite process_from_cons. simpl. rewrite Hthrow. simpl.
    split; [done|]. apply calls_since_app. simpl. by rewrite <- app_assoc.
  - intros Hrej Hthrow. unfold after. rewrite process_unfold.
    match goal with |- context [debug_log ?l w] =>
      destruct (debug_log_spec (S:=S) l w) as [out ->] end.
    simpl.
    match goal with |- context [process_from P logits ?l ?w0] =>
      pose proof (process_from_skip P logits l [] w0 s1 Hrej) as Hskip end.
    rewrite app_nil_r in Hskip. rewrite Hskip.
    rewrite process_from_nil.
    match goal with |- context [debug_log ?l ?w0] =>
      destruct (debug_log_spec (S:=S) l w0) as [out' ->] end.
    simpl. rewrite Hthrow. simpl.
    split; [done|]. apply calls_since_app. simpl. by rewrite <- app_assoc.
Qed.

(** Whatever the parser answers, a vector that [process] returns has the
    length of the input, and each of its entries is the input's entry or
    negative infinity: no logit is raised, moved or invented. *)
Theorem process_only_masks {S} (P : ParserOps S) (w w' : World S)
    (inputIds : list nat) (logits masked : list logit) :
  process P inputIds logits w = (Ok masked, w') ->
  length masked = length logits /\
  forall i x, logits !! i = Some x ->
              masked !! i = Some x \/ masked !! i = Some NegInf.
Proof.
  intros H. rewrite process_unfold in H.
  match type of H with process_from P logits ?l ?w0 = _ =>
    destruct (process_from_result P logits l w0 masked) as [(c & _ & ->)|(mask & ->)]
  end.
  { by rewrite H. }
  - split; [apply length_maskAllExcept|]. intros i x Hi.
    assert (Hlt : i < length logits) by (by eapply lookup_lt_Some).
    destruct (decide (i = tokenId c)) as [->|Hne].
    + left. by rewrite maskAllExcept_winner.
    + right. by apply maskAllExcept_others.
  - split; [apply length_applyBitmask|]. intros i x Hi.
    rewrite applyBitmask_lookup, Hi. simpl. unfold masked_at.
    destruct (mask !! i) as [[| |]|]; auto.
Qed.

(** With a depth [k >= 0], [process] makes at most [min k n + 1] calls to the
    parser, [n] being the length of the vector, and at most one of them is
    [getTokenMask]. *)
Theorem process_call_budget {S} (P : ParserOps S) (w : World S)
    (inputIds : list nat) (logits : list logit) :
  (0 <= speculationDepth (this w))%Z ->
  length (calls_since w (after (process P inputIds logits) w))
    <= Z.to_nat (speculationDepth (this w)) `min` length logits + 1 /\
  length (filter is_getTokenMask
            (calls_since w (after (process P inputIds logits) w))) <= 1.
Proof.
  intros Hk. unfold after. rewrite process_unfold.
  match goal with |- context [debug_log ?l w] =>
    destruct (debug_log_spec (S:=S) l w) as [out ->] end.
  simpl.
  match goal with |- context [process_from P logits ?l ?w0] =>
    destruct (process_from_budget P logits l w0) as (evs & Hc & Hl & Hm) end.
  simpl in Hc. rewrite (calls_since_app _ _ _ Hc).
  split; [|exact Hm].
  rewrite getTopK_take in Hl by exact Hk.
  rewrite length_take in Hl.
  rewrite (Permutation_length (sort_Permutation by_logit_desc _)) in Hl.
  by rewrite length_indexed_from in Hl.
Qed.

(** With depth 0, or on an empty vector, there is no candidate: [process]
    asks nothing through [isTokenAllowed] and its one call is
    [getTokenMask]. *)
Theorem process_without_candidates {S} (P : ParserOps S) (w : World S)
    (inputIds : list nat) (logits : list logit) :
  speculationDepth (this w) = 0%Z \/ logits = [] ->
  calls_since w (after (process P inputIds logits) w)
    = [EGetTokenMask (fst (getTokenMask P (parser w)))] /\
  fst (process P inputIds logits w)
    = match fst (getTokenMask P (parser w)) with
      | Ok mask => Ok (applyBitmask logits mask)
      | Throw e => Throw e
      end.
Proof.
  intros H. unfold after. rewrite process_unfold.
  assert (getTopK logits (speculationDepth (this w)) = []) as ->.
  { destruct H as [-> | ->]; [done|].
    unfold getTopK, slice0, sort. simpl. by destruct (_ <? 0)%Z; rewrite take_nil. }
  rewrite process_from_nil.
  match goal with |- context [debug_log ?l w] =>
    destruct (debug_log_spec (S:=S) l w) as [out ->] end.
  simpl.
  match goal with |- context [debug_log ?l ?w0] =>
    destruct (debug_log_spec (S:=S) l w0) as [out' ->] end.
  simpl. destruct (getTokenMask P (parser w)) as [[mask|e] s']; simpl;
    (split; [by apply calls_since_app | done]).
Qed.

(** ** The methods one by one *)

Ltac debug_logs :=
  repeat match goal with
         | |- context [debug_log ?l ?w0] =>
             let out := fresh "out" in
             destruct (debug_log_spec l w0) as [out ->]
         end.

Section Methods.
Context {S : Type} (P : ParserOps S).

Lemma onToken_world (t : nat) (w : World S) :
  fst (onToken P t w) = fst (advance P t (parser w)) /\
  heap (after (onToken P t) w)
    = alter (fun xs => xs ++ [t]) (generatedTokens (this w)) (heap w) /\
  this (after (onToken P t) w) = this w /\
  parser (after (onToken P t) w) = snd (advance P t (parser w)) /\
  calls (after (onToken P t) w)
    = calls w ++ [EAdvance t (fst (advance P t (parser w)))].
Proof.
  unfold after, onToken, mbind, M_bind, get_this, push, call. simpl.
  destruct (advance P t (parser w)) as [[[]|e] s']; simpl; [|done].
  debug_logs. done.
Qed.

Lemma canStop_world (w : World S) :
  heap (after (canStop P) w) = heap w /\
  this (after (canStop P) w) = this w /\
  parser (after (canStop P) w) = snd (isComplete P (parser w)) /\
  calls (after (canStop P) w)
    = calls w ++ [EIsComplete (fst (isComplete P (parser w)))].
Proof.
  unfold after, canStop, call. by destruct (isComplete P (parser w)).
Qed.

Lemma reset_processor_world (w : World S) :
  fst (reset_processor P w) = fst (reset P (parser w)) /\
  heap (after (reset_processor P) w) = <[fresh (dom (heap w)) := []]> (heap w) /\
  this (after (reset_processor P) w)
    = {| speculationDepth := speculationDepth (this w); debug := debug (this w);
         generatedTokens := fresh (dom (heap w)) |} /\
  parser (after (reset_processor P) w) = snd (reset P (parser w)) /\
  calls (after (reset_processor P) w)
    = calls w ++ [EReset (fst (reset P (parser w)))].
Proof.
  unfold after, reset_processor, mbind, M_bind, alloc, call. simpl.
  by destruct (reset P (parser w)) as [[[]|e] s'].
Qed.

Lemma getGeneratedTokens_world (w : World S) :
  heap (after getGeneratedTokens w)
    = <[fresh (dom (heap w)) := default [] (history w)]> (heap w) /\
  this (after getGeneratedTokens w) = this w /\
  parser (after getGeneratedTokens w) = parser w /\
  calls (after getGeneratedTokens w) = calls w /\
  console (after getGeneratedTokens w) = console w.
Proof. done. Qed.

(** *** The [debug] flag *)

Lemma process_from_debug (logits : list logit) (topK : list candidate)
    (w1 w2 : World S) :
  same_but_debug w1 w2 ->
  fst (process_from P logits topK w1) = fst (process_from P logits topK w2) /\
  same_but_debug (snd (process_from P logits topK w1))
                 (snd (process_from P logits topK w2)).
Proof.
  revert w1 w2. induction topK as [|c rest IH];
    intros w1 w2 (Hh & Hk & Hg & Hp & Hc).
  - rewrite !process_from_nil. debug_logs. simpl. rewrite Hp.
    destruct (getTokenMask P (parser w2)) as [[mask|e] s']; simpl;
      (split; [done|]); unfold same_but_debug; simpl; by rewrite Hc.
  - rewrite !process_from_cons. rewrite Hp.
    destruct (isTokenAllowed P (tokenId c) (parser w2)) as [[[|]|e] s'];
      cbv beta iota zeta.
    + debug_logs. simpl. split; [done|].
      unfold same_but_debug; simpl; by rewrite Hc.
    + apply IH. unfold same_but_debug; simpl; by rewrite Hc.
    + simpl. split; [done|]. unfold same_but_debug; simpl; by rewrite Hc.
Qed.

Lemma process_debug (inputIds : list nat) (logits : list logit) (w1 w2 : World S) :
  same_but_debug w1 w2 ->
  fst (process P inputIds logits w1) = fst (process P inputIds logits w2) /\
  same_but_debug (after (process P inputIds logits) w1)
                 (after (process P inputIds logits) w2).
Proof.
  intros H. unfold after. rewrite !process_unfold.
  destruct H as (Hh & Hk & Hg & Hp & Hc). rewrite Hk.
  apply process_from_debug. debug_logs. by unfold same_but_debug.
Qed.

Lemma host_act_debug (a : host_action) (w1 w2 : World S) :
  same_but_debug w1 w2 -> same_but_debug (host_act P a w1) (host_act P a w2).
Proof.
  intros H. destruct a as [[t|inputIds logits| |]|]; simpl.
  - destruct H as (Hh & Hk & Hg & Hp & Hc).
    destruct (onToken_world t w1) as (_ & Hh1 & Ht1 & Hp1 & Hc1).
    destruct (onToken_world t w2) as (_ & Hh2 & Ht2 & Hp2 & Hc2).
    unfold same_but_debug.
    rewrite Hh1, Hh2, Ht1, Ht2, Hp1, Hp2, Hc1, Hc2, Hh, Hg, Hp, Hc. done.
  - by apply process_debug.
  - destruct H as (Hh & Hk & Hg & Hp & Hc).
    destruct (canStop_world w1) as (Hh1 & Ht1 & Hp1 & Hc1).
    destruct (canStop_world w2) as (Hh2 & Ht2 & Hp2 & Hc2).
    unfold same_but_debug.
    rewrite Hh1, Hh2, Ht1, Ht2, Hp1, Hp2, Hc1, Hc2, Hp, Hc. done.
  - destruct H as (Hh & Hk & Hg & Hp & Hc).
    unfold same_but_debug, after, history. simpl. rewrite Hh, Hg. done.
  - destruct H as (Hh & Hk & Hg & Hp & Hc).
    destruct (reset_processor_world w1) as (_ & Hh1 & Ht1 & Hp1 & Hc1).
    destruct (reset_processor_world w2) as (_ & Hh2 & Ht2 & Hp2 & Hc2).
    unfold same_but_debug.
    rewrite Hh1, Hh2, Ht1, Ht2, Hp1, Hp2, Hc1, Hc2, Hh, Hp, Hc. done.
Qed.

Lemma host_acts_debug (acts : list host_action) (w1 w2 : World S) :
  same_but_debug w1 w2 ->
  same_but_debug (host_acts P acts w1) (host_acts P acts w2).
Proof.
  revert w1 w2. induction acts as [|a acts IH]; intros w1 w2 H; [done|].
  simpl. apply IH. by apply host_act_debug.
Qed.

(** *** Nothing is logged when [debug] is off *)

Lemma process_from_quiet (logits : list logit) (topK : list candidate) (w : World S) :
  debug (this w) = false ->
  console (snd (process_from P logits topK w)) = console w.
Proof.
  revert w. induction topK as [|c rest IH]; intros w Hd.
  - rewrite process_from_nil. unfold debug_log. rewrite Hd. simpl.
    by destruct (getTokenMask P (parser w)) as [[mask|e] s'].
  - rewrite process_from_cons.
    destruct (isTokenAllowed P (tokenId c) (parser w)) as [[[|]|e] s'];
      cbv beta iota zeta.
    + unfold debug_log. simpl. by rewrite Hd.
    + by rewrite IH.
    + done.
Qed.

Lemma host_act_quiet (a : host_action) (w : World S) :
  debug (this w) = false ->
  debug (this (host_act P a w)) = false /\
  console (host_act P a w) = console w.
Proof.
  intros Hd. destruct a as [[t|inputIds logits| |]|]; simpl.
  - destruct (onToken_world t w) as (_ & _ & Ht & _). split; [by rewrite Ht|].
    unfold after, onToken, mbind, M_bind, get_this, push, call, debug_log. simpl.
    destruct (advance P t (parser w)) as [[[]|e] s']; simpl; [|done].
    by rewrite Hd.
  - destruct (process_frame P inputIds logits w) as (_ & Ht & _).
    unfold after. split; [by rewrite Ht|].
    rewrite process_unfold. unfold debug_log at 1. rewrite Hd. simpl.
    by apply process_from_quiet.
  - destruct (canStop_world w) as (_ & Ht & _). split; [by rewrite Ht|].
    unfold after, canStop, call. by destruct (isComplete P (parser w)).
  - done.
  - destruct (reset_processor_world w) as (_ & _ & Ht & _).
    split; [by rewrite Ht|].
    unfold after, reset_processor, mbind, M_bind, alloc, call. simpl.
    by destruct (reset P (parser w)) as [[[]|e] s'].
Qed.
End Methods.

(** The [debug] flag changes nothing but the console: two processors that
    differ in it at most stay so under any sequence of host calls, resets
    included, and [process] returns the same for both. *)
Theorem debug_changes_only_the_console {S} (P : ParserOps S)
    (acts : list host_action) (w1 w2 : World S) :
  same_but_debug w1 w2 ->
  same_but_debug (host_acts P acts w1) (host_acts P acts w2) /\
  forall inputIds logits,
    fst (process P inputIds logits (host_acts P acts w1))
    = fst (process P inputIds logits (host_acts P acts w2)).
Proof.
  intros H. pose proof (host_acts_debug P acts w1 w2 H) as Hs.
  split; [exact Hs|]. intros inputIds logits.
  by apply process_debug.
Qed.

(** A processor built with [debug] off never writes to the console, whatever
    it is asked to do. *)
Theorem no_logging_without_debug {S} (P : ParserOps S)
    (acts : list host_action) (w : World S) :
  debug (this w) = false ->
  console (host_acts P acts w) = console w /\
  debug (this (host_acts P acts w)) = false.
Proof.
  revert w. induction acts as [|a acts IH]; intros w Hd; [done|].
  simpl. destruct (host_act_quiet P a w Hd) as [Hd' Hc].
  destruct (IH _ Hd') as [-> ->]. done.
Qed.

(** [onToken] records the token first and then calls [advance], once, with
    that token: it returns or throws what [advance] does, and the token is in
    the history in both cases, so after a throw the history runs ahead of the
    parser. *)
Theorem onToken_records_then_advances {S} (P : ParserOps S) (w : World S)
    (t : nat) (xs : list nat) :
  history w = Some xs ->
  fst (onToken P t w) = fst (advance P t (parser w)) /\
  history (after (onToken P t) w) = Some (xs ++ [t]) /\
  parser (after (onToken P t) w) = snd (advance P t (parser w)) /\
  calls_since w (after (onToken P t) w)
    = [EAdvance t (fst (advance P t (parser w)))].
Proof.
  intros Hx.
  destruct (onToken_world P t w) as (Hr & _ & _ & Hp & Hc).
  destruct (onToken_history P t w) as [_ Hh].
  split; [exact Hr|]. split; [by rewrite Hh, Hx|]. split; [exact Hp|].
  by apply calls_since_app.
Qed.

(** [reset] gives the processor a new, empty history and calls the parser's
    [reset] once, returning or throwing what it does; no array that existed
    before is written to, so an array returned earlier by
    [getGeneratedTokens], and the old history itself, keep their elements;
    depth and debug flag are kept. *)
Theorem reset_starts_a_new_history {S} (P : ParserOps S) (w : World S) :
  fst (reset_processor P w) = fst (reset P (parser w)) /\
  history (after (reset_processor P) w) = Some [] /\
  (forall arr, arr ∈ dom (heap w) ->
     heap (after (reset_processor P) w) !! arr = heap w !! arr) /\
  speculationDepth (this (after (reset_processor P) w)) = speculationDepth (this w) /\
  debug (this (after (reset_processor P) w)) = debug (this w) /\
  calls_since w (after (reset_processor P) w) = [EReset (fst (reset P (parser w)))].
Proof.
  destruct (reset_processor_world P w) as (Hr & Hh & Ht & _ & Hc).
  split; [exact Hr|]. split; [apply reset_processor_history|].
  split.
  { intros arr Harr. rewrite Hh. apply lookup_insert_ne.
    intros E. apply (is_fresh (dom (heap w))). by rewrite E. }
  rewrite Ht. simpl. repeat split. by apply calls_since_app.
Qed.

Lemma host_act_history {S} (P : ParserOps S) (a : host_action) (w : World S)
    (xs : list nat) :
  history w = Some xs ->
  history (host_act P a w) = Some (tokens_since_reset xs [a]).
Proof.
  intros Hx. destruct a as [[t|inputIds logits| |]|]; simpl.
  - destruct (onToken_history P t w) as [_ ->]. by rewrite Hx.
  - unfold after, history.
    destruct (process_frame P inputIds logits w) as (-> & -> & _). done.
  - unfold after, history, canStop.
    destruct (call_frame (isComplete P) EIsComplete w) as [-> ->]. done.
  - rewrite getGeneratedTokens_history; [done | by rewrite Hx].
  - apply reset_processor_history.
Qed.

(** Over any sequence of host calls, resets included and whatever the parser
    answers or throws, the history is the ids passed to [onToken] since the
    last [reset]. *)
Theorem history_follows_the_host {S} (P : ParserOps S)
    (acts : list host_action) (w : World S) (xs : list nat) :
  history w = Some xs ->
  history (host_acts P acts w) = Some (tokens_since_reset xs acts).
Proof.
  revert w xs. induction acts as [|a acts IH]; intros w xs Hx; [done|].
  simpl. apply IH. apply (host_act_history P a w xs Hx).
Qed.

Lemma host_act_keeps_snapshot {S} (P : ParserOps S) (a : host_action)
    (w : World S) (arr : positive) (ys : list nat) :
  is_Some (history w) ->
  arr <> generatedTokens (this w) ->
  heap w !! arr = Some ys ->
  is_Some (history (host_act P a w)) /\
  arr <> generatedTokens (this (host_act P a w)) /\
  heap (host_act P a w) !! arr = Some ys.
Proof.
  intros [xs Hx] Hne Harr.
  split; [rewrite (host_act_history P a w xs Hx); by eexists|].
  assert (Hfresh : fresh (dom (heap w)) <> arr).
  { intros E. apply (is_fresh (dom (heap w))). rewrite E.
    apply elem_of_dom. by eexists. }
  destruct a as [[t|inputIds logits| |]|]; simpl.
  - destruct (onToken_world P t w) as (_ & -> & -> & _).
    split; [done|]. by rewrite lookup_alter_ne.
  - unfold after.
    destruct (process_frame P inputIds logits w) as (-> & -> & _). done.
  - destruct (canStop_world P w) as (-> & -> & _). done.
  - split; [done|]. unfold after. simpl. by rewrite lookup_insert_ne.
  - destruct (reset_processor_world P w) as (_ & -> & -> & _). simpl.
    split; [done|]. by rewrite lookup_insert_ne.
Qed.

(** An array returned by [getGeneratedTokens] is a snapshot: nothing the host
    has the processor do afterwards, [onToken] and [reset] included, changes
    its elements. *)
Theorem snapshot_is_stable {S} (P : ParserOps S) (w w1 : World S)
    (arr : positive) (acts : list host_action) :
  is_Some (history w) ->
  getGeneratedTokens w = (Ok arr, w1) ->
  heap (host_acts P acts w1) !! arr = history w.
Proof.
  intros Hs. rewrite getGeneratedTokens_spec. intros [= <- <-].
  pose proof (fresh_not_history w Hs) as Hne.
  destruct Hs as [xs Hx]. rewrite Hx.
  set (arr := fresh (dom (heap w))) in *.
  set (w1 := set_heap (<[arr := default [] (Some xs)]> (heap w)) w).
  assert (Hinv : is_Some (history w1) /\ arr <> generatedTokens (this w1) /\
                 heap w1 !! arr = Some xs).
  { unfold history, w1. simpl. rewrite lookup_insert_ne by done.
    unfold history in Hx.
    split; [rewrite Hx; by eexists|]. split; [done|]. apply lookup_insert_eq. }
  clearbody w1. revert w1 Hinv.
  induction acts as [|a acts IH]; intros w1 (H1 & H2 & H3); [done|].
  simpl. apply IH. by apply host_act_keeps_snapshot.
Qed.

(** ** The parser class *)

Section ParserFacts.
Context {W : Type}.
Context (is_token_allowed : nat -> W -> result bool * W).
Context (get_token_mask : W -> result (list Z) * W).
Context (wasm_advance : nat -> W -> result unit * W).
Context (is_complete : W -> result bool * W).
Context (wasm_reset : string -> W -> result unit * W).
Context (vocab_size : W -> result nat * W).
Context (JSON_stringify : json -> string).

Let step := parser_step is_token_allowed get_token_mask wasm_advance is_complete
              wasm_reset vocab_size JSON_stringify.
Let run := parser_run is_token_allowed get_token_mask wasm_advance is_complete
             wasm_reset vocab_size JSON_stringify.
Let module_step := wasm_step is_token_allowed get_token_mask wasm_advance
                     is_complete wasm_reset vocab_size JSON_stringify.
Let module_run := wasm_run is_token_allowed get_token_mask wasm_advance
                    is_complete wasm_reset vocab_size JSON_stringify.

Lemma guarded_uninitialized {A} (f : W -> result A * W) (p : GuidanceParser (W:=W)) :
  _isInitialized p = false -> guarded f p = (Throw not_initialized_error, p).
Proof. intros Hp. unfold guarded, ensureInitialized. by rewrite Hp. Qed.

(** On an initialised parser a method is the call into the module. *)
Lemma guarded_initialized {A} (f : W -> result A * W) (p : GuidanceParser (W:=W)) :
  _isInitialized p = true ->
  guarded f p = (fst (f (wasmParser p)),
                 {| wasmParser := snd (f (wasmParser p)); _isInitialized := true |}).
Proof.
  intros Hp. unfold guarded, ensureInitialized, with_wasm. rewrite Hp.
  by destruct (f (wasmParser p)).
Qed.

Lemma parser_step_uninitialized (c : parser_call) (p : GuidanceParser (W:=W)) :
  _isInitialized p = false -> step c p = (Some not_initialized_error, p).
Proof.
  intros Hp. unfold step, parser_step.
  destruct c as [t| |t| |g|]; simpl;
    unfold parser_isTokenAllowed, parser_getTokenMask, parser_advance,
      parser_isComplete, parser_reset, parser_vocabSize;
    by rewrite guarded_uninitialized.
Qed.

Lemma parser_step_initialized (c : parser_call) (p : GuidanceParser (W:=W)) :
  _isInitialized p = true ->
  step c p = (fst (module_step c (wasmParser p)),
              {| wasmParser := snd (module_step c (wasmParser p));
                 _isInitialized := true |}).
Proof.
  intros Hp. unfold step, parser_step, module_step, wasm_step.
  destruct c as [t| |t| |[g|]|]; simpl;
    unfold parser_isTokenAllowed, parser_getTokenMask, parser_advance,
      parser_isComplete, parser_reset, parser_vocabSize;
    by rewrite guarded_initialized.
Qed.

Lemma parser_run_uninitialized (cs : list parser_call) (p : GuidanceParser (W:=W)) :
  _isInitialized p = false ->
  run cs p = (replicate (length cs) not_initialized_error, p).
Proof.
  intros Hp. induction cs as [|c cs IH]; [done|].
  unfold run in *. simpl.
  fold step. rewrite (parser_step_uninitialized c p Hp). by rewrite IH.
Qed.

(** An initialised parser throws what the module throws, no more and no
    less, and holds the module's state. *)
Lemma parser_run_initialized (cs : list parser_call) (p : GuidanceParser (W:=W)) :
  _isInitialized p = true ->
  run cs p = (fst (module_run cs (wasmParser p)),
              {| wasmParser := snd (module_run cs (wasmParser p));
                 _isInitialized := true |}).
Proof.
  revert p. induction cs as [|c cs IH]; intros p Hp.
  { simpl. destruct p as [w i]. simpl in *. by subst. }
  unfold run, module_run in *. simpl. fold step. fold module_step.
  rewrite (parser_step_initialized c p Hp).
  destruct (module_step c (wasmParser p)) as [e w1]. simpl.
  rewrite IH by done. simpl.
  by destruct (wasm_run _ _ _ _ _ _ _ cs w1) as [es w2].
Qed.
End ParserFacts.

(** A parser that is not initialised answers every call, of any method, with
    the same error; the module is not reached and the parser stays as it
    is. *)
Theorem uninitialized_parser_always_throws {W : Type}
    (is_token_allowed : nat -> W -> result bool * W)
    (get_token_mask : W -> result (list Z) * W)
    (wasm_advance : nat -> W -> result unit * W)
    (is_complete : W -> result bool * W)
    (wasm_reset : string -> W -> result unit * W)
    (vocab_size : W -> result nat * W)
    (JSON_stringify : json -> string)
    (cs : list parser_call) (p : GuidanceParser (W:=W)) :
  _isInitialized p = false ->
  parser_run is_token_allowed get_token_mask wasm_advance is_complete wasm_reset
    vocab_size JSON_stringify cs p
  = (replicate (length cs) not_initialized_error, p).
Proof. apply parser_run_uninitialized. Qed.

(** A parser that [create] returns was built by the module's constructor from
    the translated grammar and the tokenizer data; it is initialised and stays
    so, whatever the module does: no call, of any method and after any others,
    is refused by [ensureInitialized]; each reaches the module, the errors
    thrown are those the module throws, in their order, and the parser holds
    the state the module is left in; and after any such calls the four
    queries return or throw what the module returns or throws. *)
Theorem created_parser_is_initialized {W : Type}
    (import_wasm : result unit) (new_LLGuidanceParser : string -> string -> result W)
    (stringify_tokenizer : TokenizerData -> string)
    (is_token_allowed : nat -> W -> result bool * W)
    (get_token_mask : W -> result (list Z) * W)
    (wasm_advance : nat -> W -> result unit * W)
    (is_complete : W -> result bool * W)
    (wasm_reset : string -> W -> result unit * W)
    (vocab_size : W -> result nat * W)
    (JSON_stringify : json -> string)
    (grammar : Grammar) (tokenizer : TokenizerData) (p : GuidanceParser (W:=W))
    (cs : list parser_call) :
  let run := parser_run is_token_allowed get_token_mask wasm_advance is_complete
               wasm_reset vocab_size JSON_stringify in
  let module_run := wasm_run is_token_allowed get_token_mask wasm_advance
                      is_complete wasm_reset vocab_size JSON_stringify in
  create import_wasm new_LLGuidanceParser JSON_stringify stringify_tokenizer
    grammar tokenizer = Ok p ->
  new_LLGuidanceParser (JSON_stringify (convertGrammar grammar))
    (stringify_tokenizer tokenizer) = Ok (wasmParser p) /\
  run cs p = (fst (module_run cs (wasmParser p)),
              {| wasmParser := snd (module_run cs (wasmParser p));
                 _isInitialized := true |}) /\
  let p' := snd (run cs p) in
  (forall t, fst (parser_isTokenAllowed is_token_allowed t p')
             = fst (is_token_allowed t (wasmParser p'))) /\
  fst (parser_getTokenMask get_token_mask p') = fst (get_token_mask (wasmParser p')) /\
  fst (parser_isComplete is_complete p') = fst (is_complete (wasmParser p')) /\
  fst (parser_vocabSize vocab_size p') = fst (vocab_size (wasmParser p')).
Proof.
  intros run module_run. unfold create. destruct import_wasm as [[]|e]; [|done].
  destruct (new_LLGuidanceParser _ _) as [w|e] eqn:E; [|done].
  intros [= <-]. split; [done|].
  assert (Hrun : run cs {| wasmParser := w; _isInitialized := true |}
    = (fst (module_run cs w),
       {| wasmParser := snd (module_run cs w); _isInitialized := true |})).
  { by apply parser_run_initialized. }
  split; [exact Hrun|]. rewrite Hrun. simpl.
  unfold parser_isTokenAllowed, parser_getTokenMask, parser_isComplete,
    parser_vocabSize.
  repeat split; intros; by rewrite guarded_initialized.
Qed.

(** Given a parser that is not initialised, [process], [onToken] and
    [canStop] all throw the parser's error, for every vector and depth; the
    parser is left as it was, and [onToken] has recorded its token all the
    same. *)
Theorem processor_on_uninitialized_parser {W : Type}
    (is_token_allowed : nat -> W -> result bool * W)
    (get_token_mask : W -> result (list Z) * W)
    (wasm_advance : nat -> W -> result unit * W)
    (is_complete : W -> result bool * W)
    (wasm_reset : string -> W -> result unit * W)
    (JSON_stringify : json -> string)
    (w : World (GuidanceParser (W:=W))) (inputIds : list nat) (logits : list logit)
    (t : nat) :
  let P := GuidanceParser_ops is_token_allowed get_token_mask wasm_advance
             is_complete wasm_reset JSON_stringify in
  _isInitialized (parser w) = false ->
  (fst (process P inputIds logits w) = Throw not_initialized_error /\
   parser (after (process P inputIds logits) w) = parser w) /\
  (fst (canStop P w) = Throw not_initialized_error /\
   parser (after (canStop P) w) = parser w) /\
  (fst (onToken P t w) = Throw not_initialized_error /\
   parser (after (onToken P t) w) = parser w /\
   history (after (onToken P t) w) = (fun xs => xs ++ [t]) <$> history w).
Proof.
  intros P Hp.
  assert (Hg : forall A (f : W -> result A * W),
    guarded f (parser w) = (Throw not_initialized_error, parser w)).
  { intros A f. unfold guarded, ensureInitialized. by rewrite Hp. }
  split; [|split].
  - unfold after. rewrite process_unfold.
    match goal with |- context [debug_log ?l w] =>
      destruct (debug_log_spec (S:=GuidanceParser (W:=W)) l w) as [out ->] end.
    simpl.
    destruct (getTopK logits (speculationDepth (this w))) as [|c rest].
    + rewrite process_from_nil.
      match goal with |- context [debug_log ?l ?w0] =>
        destruct (debug_log_spec (S:=GuidanceParser (W:=W)) l w0) as [out' ->] end.
      simpl. unfold parser_getTokenMask. by rewrite Hg.
    + rewrite process_from_cons. simpl. unfold parser_isTokenAllowed. by rewrite Hg.
  - destruct (canStop_world P w) as (_ & _ & Hs & _).
    unfold after in *. rewrite Hs. unfold canStop, call. simpl.
    unfold parser_isComplete. by rewrite Hg.
  - destruct (onToken_world P t w) as (Hr & _ & _ & Hs & _).
    destruct (onToken_history P t w) as [_ Hh].
    rewrite Hr, Hs, Hh. simpl. unfold parser_advance. by rewrite Hg.
Qed.

(** The translation loses nothing but whether the start symbol was written
    out: two grammars translate to the same object exactly when they are equal
    once the default start symbol is filled in. *)
Theorem convertGrammar_injective_up_to_start (g1 g2 : Grammar) :
  convertGrammar g1 = convertGrammar g2 <-> with_start g1 = with_start g2.
Proof.
  destruct g1 as [s1|p1|t1 o1], g2 as [s2|p2|t2 o2]; simpl;
    split; intros H; try discriminate; injection H; intros; subst; congruence.
Qed.

(** ** The bridge *)

Lemma assign_lookup_proto (m : gmap string nat) (e : string * nat) :
  assign m e !! "__proto__" = m !! "__proto__".
Proof.
  unfold assign. destruct (String.eqb_spec e.1 "__proto__") as [E|N]; [done|].
  by rewrite lookup_insert_ne.
Qed.

Lemma foldl_assign_lookup_proto (entries : list (string * nat)) (m : gmap string nat) :
  foldl assign m entries !! "__proto__" = m !! "__proto__".
Proof.
  revert m. induction entries as [|e l IH]; intros m; [done|].
  simpl. by rewrite IH, assign_lookup_proto.
Qed.

Lemma foldl_assign_lookup_other (entries : list (string * nat)) (m : gmap string nat)
    (k : string) :
  k ∉ entries.*1 -> foldl assign m entries !! k = m !! k.
Proof.
  revert m. induction entries as [|e l IH]; intros m Hk; [done|].
  simpl in *. apply not_elem_of_cons in Hk as [Hne Hk].
  rewrite IH by done. unfold assign.
  destruct (String.eqb e.1 "__proto__"); [done|]. by rewrite lookup_insert_ne.
Qed.

Lemma foldl_assign_lookup_entry (entries : list (string * nat)) (m : gmap string nat)
    (k : string) (v : nat) :
  NoDup entries.*1 -> k <> "__proto__" -> (k, v) ∈ entries ->
  foldl assign m entries !! k = Some v.
Proof.
  revert m. induction entries as [|e l IH]; intros m Hnd Hk Hin.
  { by apply elem_of_nil in Hin. }
  simpl in *. apply NoDup_cons in Hnd as [Hnot Hnd].
  apply elem_of_cons in Hin as [<-|Hin].
  - rewrite foldl_assign_lookup_other by done. unfold assign. simpl.
    destruct (String.eqb_spec k "__proto__") as [E|N]; [done|].
    apply lookup_insert_eq.
  - by apply IH.
Qed.

(** The record made from a [Map], whose keys are distinct: it has exactly the
    entries of the map, but for the key [__proto__], which it never has. *)
Theorem mapToRecord_of_Map (entries : list (string * nat)) :
  NoDup entries.*1 ->
  mapToRecord (VocabMap entries) !! "__proto__" = None /\
  forall k v, k <> "__proto__" ->
              (mapToRecord (VocabMap entries) !! k = Some v <-> (k, v) ∈ entries).
Proof.
  intros Hnd. simpl. split; [by rewrite foldl_assign_lookup_proto|].
  intros k v Hk. split; [|by apply foldl_assign_lookup_entry].
  intros Hl. destruct (decide (k ∈ entries.*1)) as [Hin|Hnot].
  - apply list_elem_of_fmap in Hin as ([k' v'] & -> & Hin). simpl in *.
    rewrite (foldl_assign_lookup_entry entries ∅ k' v' Hnd Hk Hin) in Hl.
    by injection Hl as <-.
  - by rewrite foldl_assign_lookup_other in Hl.
Qed.

Lemma mapToRecord_list_to_map (entries : list (string * nat)) :
  NoDup entries.*1 -> "__proto__" ∉ entries.*1 ->
  mapToRecord (VocabMap entries) = list_to_map entries.
Proof.
  intros Hnd Hproto. apply map_eq. intros k. simpl.
  destruct (decide (k ∈ entries.*1)) as [Hin|Hnot].
  - apply list_elem_of_fmap in Hin as ([k' v'] & -> & Hin). simpl.
    assert (k' <> "__proto__").
    { intros ->. apply Hproto. apply list_elem_of_fmap. by exists ("__proto__", v'). }
    rewrite (foldl_assign_lookup_entry entries ∅ k' v') by done.
    symmetry. by apply elem_of_list_to_map.
  - rewrite foldl_assign_lookup_other by done.
    symmetry. rewrite lookup_empty. by apply not_elem_of_list_to_map.
Qed.

(** A vocabulary held in a [Map] and the same vocabulary held in a plain
    object normalise to the same tokenizer data, under [model] and at the top
    level alike, when no token is spelled [__proto__]. *)
Theorem Map_and_Record_normalise_alike (entries : list (string * nat))
    (merges : option (list string)) (added : option (list AddedTokenEntry)) :
  NoDup entries.*1 -> "__proto__" ∉ entries.*1 ->
  extractTokenizerData
    {| model := Some {| model_vocab := Some (VocabMap entries); model_merges := merges |};
       vocab := None; added_tokens := added; getVocab := None |}
  = extractTokenizerData
    {| model := Some {| model_vocab := Some (VocabRecord (list_to_map entries));
                        model_merges := merges |};
       vocab := None; added_tokens := added; getVocab := None |} /\
  extractTokenizerData
    {| model := Some {| model_vocab := None; model_merges := merges |};
       vocab := Some (VocabMap entries); added_tokens := added; getVocab := None |}
  = extractTokenizerData
    {| model := Some {| model_vocab := None; model_merges := merges |};
       vocab := Some (VocabRecord (list_to_map entries));
       added_tokens := added; getVocab := None |}.
Proof.
  intros Hnd Hproto. unfold extractTokenizerData. simpl.
  pose proof (mapToRecord_list_to_map entries Hnd Hproto) as E. simpl in E.
  rewrite E. done.
Qed.


(** A descriptor document and the tokenizer object that exposes the same data
    normalise alike, up to two points: the object always has a list of added
    tokens, empty when the document had none, and its model type is detected
    from the merge rules where the document's is the declared one.  One
    throws exactly when the other does. *)
Theorem descriptor_and_object_agree (data : TokenizerJson) :
  (throws (parseTokenizerJson data)
   <-> throws (extractTokenizerData (tokenizer_of_descriptor data))) /\
  forall d, parseTokenizerJson data = Ok d ->
    exists d', extractTokenizerData (tokenizer_of_descriptor data) = Ok d' /\
      td_vocab d' = td_vocab d /\
      td_merges d' = td_merges d /\
      td_added_tokens d' = Some (default [] (td_added_tokens d)) /\
      td_model_type d' = if decide (td_merges d = []) then "unknown" else "bpe".
Proof.
  unfold parseTokenizerJson, extractTokenizerData, tokenizer_of_descriptor,
    detectModelType, throws.
  destruct data as [[[v mg ty]|] added]; simpl.
  - destruct v as [v|]; simpl.
    + split; [split; intros [e He]; congruence|].
      intros d [= <-]. eexists. split; [reflexivity|]. simpl.
      split; [done|]. split; [done|].
      split; [by destruct added|].
      destruct mg as [[|x l]|]; done.
    + split; [split; eauto|]. done.
  - split; [split; eauto|]. done.
Qed.

(** The request carries an [Authorization] header exactly when a token that
    is not the empty string was given, with the token after "Bearer "; it
    carries no other header. *)
Theorem authorization_header_needs_a_token (options : LoadOptions) :
  (forall h, request_headers options !! "Authorization" = Some h <->
             exists t, token options = Some t /\ t <> "" /\ h = "Bearer " +:+ t) /\
  (forall k, k <> "Authorization" -> request_headers options !! k = None).
Proof.
  unfold request_headers. destruct (token options) as [t|]; simpl.
  - destruct (String.eqb_spec t "") as [->|Hne].
    + split; [|done]. intros h. rewrite lookup_empty.
      split; [done | intros (t & [= <-] & Hne & _); done].
    + split.
      * intros h. rewrite lookup_singleton_eq. split.
        -- intros [= <-]. eauto.
        -- intros (t' & [= <-] & _ & ->). done.
      * intros k Hk. by rewrite lookup_singleton_ne.
  - split; [|done]. intros h. rewrite lookup_empty.
    split; [done | intros (t & Ht & _); done].
Qed.

(** [loadTokenizerData] returns a result only from a response that is [ok]
    and whose document [parseTokenizerJson] accepts, and the result is that of
    [parseTokenizerJson]; a response that is not [ok] makes it throw, whatever
    document came with it. *)
Theorem loadTokenizerData_needs_an_ok_response
    (fetch : string -> gmap string string -> result Response)
    (modelId : string) (options : LoadOptions) :
  (forall d, loadTokenizerData fetch modelId options = Ok d ->
     exists response doc,
       fetch (tokenizer_url modelId options) (request_headers options) = Ok response /\
       ok response = true /\
       response_json response = Ok doc /\
       parseTokenizerJson doc = Ok d) /\
  (forall response,
     fetch (tokenizer_url modelId options) (request_headers options) = Ok response ->
     ok response = false ->
     loadTokenizerData fetch modelId options
     = Throw (Error ("Failed to fetch tokenizer from " +:+ tokenizer_url modelId options
                     +:+ ": " +:+ pretty (status response) +:+ " "
                     +:+ statusText response))).
Proof.
  unfold loadTokenizerData. split.
  - intros d. destruct (fetch _ _) as [response|e]; [|done].
    destruct (ok response) eqn:Hok; simpl; [|done].
    destruct (response_json response) as [doc|e] eqn:Hj; [|done].
    intros H. eauto 10.
  - intros response -> ->. done.
Qed.

(** ** The further properties at concrete inputs *)

Ltac decide_it := apply (bool_decide_unpack _); vm_compute; exact I.

(** Depth 3 and depth -1 on four logits: three candidates either way. *)
Lemma getTopK_candidates_witness :
  NoDup (tokenId <$> getTopK [Fin 1; Fin 7; Fin 7; NegInf] 3) /\
  length (getTopK [Fin 1; Fin 7; Fin 7; NegInf] 3) = 3 /\
  length (getTopK [Fin 1; Fin 7; Fin 7; NegInf] (-1)) = 3.
Proof.
  destruct (getTopK_candidates [Fin 1; Fin 7; Fin 7; NegInf] 3) as (_ & Hnd & Hlen & _).
  destruct (getTopK_candidates [Fin 1; Fin 7; Fin 7; NegInf] (-1)) as (_ & _ & _ & Hneg).
  exact (conj Hnd (conj (Hlen ltac:(lia)) (Hneg ltac:(lia)))).
Defined.

(** Token 1 is a candidate and token 3 is not. *)
Lemma getTopK_dominates_witness :
  ranks_before {| tokenId := 1; logit_of := Fin 7 |}
               {| tokenId := 3; logit_of := NegInf |}.
Proof.
  apply (getTopK_dominates [Fin 1; Fin 7; Fin 7; NegInf] 3); decide_it.
Defined.

Lemma maskAllExcept_out_of_range_witness :
  maskAllExcept [Fin 1; Fin 2] 5 = [NegInf; NegInf].
Proof. apply (maskAllExcept_out_of_range [Fin 1; Fin 2] 5). simpl. lia. Defined.

(** A mask of two bytes, the second one 2, on three logits. *)
Lemma applyBitmask_changes_only_zeros_witness :
  applyBitmask [Fin 1; Fin 2; Fin 3] [0; 2]%Z !! 1 = Some (Fin 2) /\
  applyBitmask [Fin 1; Fin 2; Fin 3] [0; 2]%Z !! 2 = Some (Fin 3).
Proof.
  destruct (applyBitmask_changes_only_zeros [Fin 1; Fin 2; Fin 3] [0; 2]%Z)
    as (_ & Hnz & Hshort).
  split.
  - apply (Hnz 1). discriminate.
  - apply (Hshort 2). simpl. lia.
Defined.

(** Token 1 is rejected and token 2 allowed. *)
Lemma process_first_allowed_candidate_witness :
  exists masked w',
    process (mockParser (fun t => Nat.eqb t 2) []) [] [Fin 1; Fin 7; Fin 7; NegInf]
      (test_world []) = (Ok masked, w') /\
    masked !! 2 = Some (Fin 7) /\
    (forall i, i < 4 -> i <> 2 -> masked !! i = Some NegInf) /\
    parser w' = [] /\
    calls_since (test_world []) w'
      = [EIsTokenAllowed 1 (Ok false); EIsTokenAllowed 2 (Ok true)].
Proof.
  apply (process_first_allowed_candidate (mockParser (fun t => Nat.eqb t 2) [])
           (test_world []) [] [Fin 1; Fin 7; Fin 7; NegInf]
           [{| tokenId := 1; logit_of := Fin 7 |}]
           [{| tokenId := 0; logit_of := Fin 1 |}]
           {| tokenId := 2; logit_of := Fin 7 |} [] []).
  - reflexivity.
  - eapply rejects_cons; [reflexivity | apply rejects_nil].
  - reflexivity.
Defined.

(** Token 1 is rejected and the question about token 2 throws. *)
Lemma process_propagates_exceptions_witness :
  let P := scriptedParser
             (fun t => if Nat.eqb t 1 then Ok false else Throw (Error "boom"))
             (Ok []) in
  fst (process P [] [Fin 1; Fin 7; Fin 7; NegInf] (test_world []))
    = Throw (Error "boom") /\
  calls_since (test_world [])
    (after (process P [] [Fin 1; Fin 7; Fin 7; NegInf]) (test_world []))
    = [EIsTokenAllowed 1 (Ok false); EIsTokenAllowed 2 (Throw (Error "boom"))].
Proof.
  intros P.
  apply (proj1 (process_propagates_exceptions P (test_world []) []
                  [Fin 1; Fin 7; Fin 7; NegInf] (Error "boom") [] [])
           [{| tokenId := 1; logit_of := Fin 7 |}]
           [{| tokenId := 0; logit_of := Fin 1 |}]
           {| tokenId := 2; logit_of := Fin 7 |}).
  - reflexivity.
  - eapply rejects_cons; [reflexivity | apply rejects_nil].
  - reflexivity.
Defined.

Lemma process_only_masks_witness :
  length [NegInf; NegInf; Fin 7; NegInf] = 4 /\
  forall i x, [Fin 1; Fin 7; Fin 7; NegInf] !! i = Some x ->
              [NegInf; NegInf; Fin 7; NegInf] !! i = Some x \/
              [NegInf; NegInf; Fin 7; NegInf] !! i = Some NegInf.
Proof.
  apply (process_only_masks (mockParser (fun t => Nat.eqb t 2) []) (test_world [])
           (snd (process (mockParser (fun t => Nat.eqb t 2) []) []
                   [Fin 1; Fin 7; Fin 7; NegInf] (test_world [])))
           [] [Fin 1; Fin 7; Fin 7; NegInf] [NegInf; NegInf; Fin 7; NegInf]).
  reflexivity.
Defined.

Lemma process_call_budget_witness :
  let P := mockParser (fun _ => false) [1; 1; 1; 1]%Z in
  length (calls_since (test_world [])
            (after (process P [] [Fin 1; Fin 7; Fin 7; NegInf]) (test_world []))) <= 4 /\
  length (filter is_getTokenMask
            (calls_since (test_world [])
               (after (process P [] [Fin 1; Fin 7; Fin 7; NegInf]) (test_world [])))) <= 1.
Proof.
  intros P.
  apply (process_call_budget P (test_world []) [] [Fin 1; Fin 7; Fin 7; NegInf]).
  simpl. lia.
Defined.

(** An empty vector. *)
Lemma process_without_candidates_witness :
  let P := mockParser (fun _ => true) [0; 1]%Z in
  calls_since (test_world []) (after (process P [] []) (test_world []))
    = [EGetTokenMask (Ok [0; 1]%Z)] /\
  fst (process P [] [] (test_world [])) = Ok [].
Proof.
  intros P.
  exact (process_without_candidates P (test_world []) [] [] (or_intror eq_refl)).
Defined.

Lemma debug_changes_only_the_console_witness :
  let P := mockParser (fun t => Nat.eqb t 2) [] in
  let acts := [Act (HostOnToken 1); ActReset; Act (HostOnToken 2)] in
  same_but_debug (host_acts P acts (test_world []))
                 (host_acts P acts (set_debug true (test_world []))) /\
  fst (process P [] [Fin 1; Fin 7; Fin 7; NegInf] (host_acts P acts (test_world [])))
  = fst (process P [] [Fin 1; Fin 7; Fin 7; NegInf]
           (host_acts P acts (set_debug true (test_world [])))).
Proof.
  intros P acts.
  destruct (debug_changes_only_the_console P acts (test_world [])
              (set_debug true (test_world []))) as [Hs Hp].
  - repeat split.
  - exact (conj Hs (Hp [] [Fin 1; Fin 7; Fin 7; NegInf])).
Defined.

Lemma no_logging_without_debug_witness :
  let P := mockParser (fun t => Nat.eqb t 2) [] in
  console (host_acts P [Act (HostProcess [] [Fin 1; Fin 7]); Act (HostOnToken 1); ActReset]
             (test_world [])) = [].
Proof.
  intros P.
  apply (proj1 (no_logging_without_debug P
    [Act (HostProcess [] [Fin 1; Fin 7]); Act (HostOnToken 1); ActReset]
    (test_world []) eq_refl)).
Defined.

(** [advance] throws, and token 7 is in the history all the same. *)
Lemma onToken_records_then_advances_witness :
  fst (onToken failingParser 7 (test_world [])) = Throw (Error "advance failed") /\
  history (after (onToken failingParser 7) (test_world [])) = Some [7].
Proof.
  destruct (onToken_records_then_advances failingParser (test_world []) 7 [] eq_refl)
    as (Hr & Hh & _).
  exact (conj Hr Hh).
Defined.

(** After [onToken(4)], a [reset] whose parser throws: the old array still
    holds 4 and the history is empty. *)
Lemma reset_starts_a_new_history_witness :
  let w := host_run failingParser [HostOnToken 4] (test_world []) in
  history (after (reset_processor failingParser) w) = Some [] /\
  heap (after (reset_processor failingParser) w) !! generatedTokens (this w) = Some [4].
Proof.
  intros w.
  destruct (reset_starts_a_new_history failingParser w) as (_ & Hh & Hold & _).
  split; [exact Hh|].
  rewrite (Hold (generatedTokens (this w))); [reflexivity|].
  apply elem_of_dom. eexists. reflexivity.
Defined.

Lemma history_follows_the_host_witness :
  let P := mockParser (fun _ => true) [] in
  history (host_acts P [Act (HostOnToken 1); ActReset; Act (HostOnToken 2);
                        Act HostCanStop; Act (HostOnToken 3)] (test_world []))
  = Some [2; 3].
Proof.
  intros P.
  exact (history_follows_the_host P
           [Act (HostOnToken 1); ActReset; Act (HostOnToken 2);
            Act HostCanStop; Act (HostOnToken 3)] (test_world []) [] eq_refl).
Defined.

Lemma snapshot_is_stable_witness :
  let P := mockParser (fun _ => true) [] in
  let w := host_run P [HostOnToken 4] (test_world []) in
  heap (host_acts P [Act (HostOnToken 5); ActReset; Act (HostOnToken 6)]
          (snd (getGeneratedTokens w)))
    !! fresh (dom (heap w)) = Some [4].
Proof.
  intros P w.
  apply (snapshot_is_stable P w (snd (getGeneratedTokens w)) (fresh (dom (heap w)))
           [Act (HostOnToken 5); ActReset; Act (HostOnToken 6)]).
  - eexists. reflexivity.
  - reflexivity.
Defined.

Lemma uninitialized_parser_always_throws_witness :
  let p := {| wasmParser := [1]; _isInitialized := false |} in
  stub_run [PIsTokenAllowed 2; PAdvance 2; PReset None; PVocabSize] p
  = ([not_initialized_error; not_initialized_error; not_initialized_error;
      not_initialized_error], p).
Proof.
  intros p.
  exact (uninitialized_parser_always_throws stub_is_token_allowed stub_get_token_mask
           stub_advance stub_is_complete stub_reset stub_vocab_size stub_stringify
           [PIsTokenAllowed 2; PAdvance 2; PReset None; PVocabSize] p eq_refl).
Defined.

(** The stand-in module throws when it is advanced with token 3: the created
    parser throws that error, and no other. *)
Lemma created_parser_is_initialized_witness :
  stub_run [PAdvance 2; PIsTokenAllowed 3; PAdvance 3; PAdvance 4; PGetTokenMask]
    {| wasmParser := []; _isInitialized := true |}
  = ([Error "token not allowed"],
     {| wasmParser := [2; 4]; _isInitialized := true |}).
Proof.
  exact (proj1 (proj2 (created_parser_is_initialized (Ok tt) stub_constructor
    stub_stringify_tokenizer stub_is_token_allowed stub_get_token_mask stub_advance
    stub_is_complete stub_reset stub_vocab_size stub_stringify
    (RegexGrammar "a+")
    {| td_vocab := {[ "a" := 0 ]}; td_merges := []; td_added_tokens := None;
       td_model_type := "unknown" |}
    {| wasmParser := []; _isInitialized := true |}
    [PAdvance 2; PIsTokenAllowed 3; PAdvance 3; PAdvance 4; PGetTokenMask]
    eq_refl))).
Defined.

Lemma processor_on_uninitialized_parser_witness :
  fst (process stub_ops [] [Fin 1; Fin 7] uninitialized_world)
    = Throw not_initialized_error /\
  fst (onToken stub_ops 9 uninitialized_world) = Throw not_initialized_error /\
  history (after (onToken stub_ops 9) uninitialized_world) = Some [9].
Proof.
  destruct (processor_on_uninitialized_parser stub_is_token_allowed
              stub_get_token_mask stub_advance stub_is_complete stub_reset
              stub_stringify uninitialized_world [] [Fin 1; Fin 7] 9 eq_refl)
    as ((Hp & _) & _ & (Ho & _ & Hh)).
  exact (conj Hp (conj Ho Hh)).
Defined.

Lemma convertGrammar_injective_up_to_start_witness :
  convertGrammar (LarkGrammar "start: x" None)
  = convertGrammar (LarkGrammar "start: x" (Some "start")).
Proof.
  apply (proj2 (convertGrammar_injective_up_to_start
                  (LarkGrammar "start: x" None) (LarkGrammar "start: x" (Some "start")))).
  reflexivity.
Defined.

Lemma mapToRecord_of_Map_witness :
  mapToRecord (VocabMap [("a", 0); ("__proto__", 1); ("b", 2)]) !! "__proto__" = None /\
  mapToRecord (VocabMap [("a", 0); ("__proto__", 1); ("b", 2)]) !! "b" = Some 2.
Proof.
  destruct (mapToRecord_of_Map [("a", 0); ("__proto__", 1); ("b", 2)]) as [Hp He].
  - decide_it.
  - split; [exact Hp|]. apply He; [discriminate | decide_it].
Defined.

Lemma Map_and_Record_normalise_alike_witness :
  extractTokenizerData
    {| model := Some {| model_vocab := Some (VocabMap [("alpha", 0); ("beta", 1)]);
                        model_merges := None |};
       vocab := None; added_tokens := None; getVocab := None |}
  = extractTokenizerData
    {| model := Some {| model_vocab :=
                          Some (VocabRecord (list_to_map [("alpha", 0); ("beta", 1)]));
                        model_merges := None |};
       vocab := None; added_tokens := None; getVocab := None |}.
Proof.
  apply (proj1 (Map_and_Record_normalise_alike [("alpha", 0); ("beta", 1)] None None
                  ltac:(decide_it) ltac:(decide_it))).
Defined.


Lemma descriptor_and_object_agree_witness :
  exists d',
    extractTokenizerData (tokenizer_of_descriptor bpe_descriptor) = Ok d' /\
    td_merges d' = ["h e"; "l l"; "o w"] /\
    td_added_tokens d' = Some [] /\
    td_model_type d' = "bpe".
Proof.
  destruct (proj2 (descriptor_and_object_agree bpe_descriptor) _ eq_refl)
    as (d' & He & _ & Hm & Ha & Ht).
  exists d'. split; [exact He|]. split; [exact Hm|]. split; [exact Ha | exact Ht].
Defined.

Lemma authorization_header_needs_a_token_witness :
  request_headers {| token := Some "hf_x"; baseUrl := None |} !! "Authorization"
  = Some "Bearer hf_x".
Proof.
  apply (proj1 (authorization_header_needs_a_token
                  {| token := Some "hf_x"; baseUrl := None |})).
  exists "hf_x". repeat split. discriminate.
Defined.

(** Without a token the stand-in server answers 401. *)
Lemma loadTokenizerData_needs_an_ok_response_witness :
  loadTokenizerData stub_fetch "gpt2" {| token := None; baseUrl := None |}
  = Throw (Error ("Failed to fetch tokenizer from " +:+
                  "https://huggingface.co/gpt2/resolve/main/tokenizer.json" +:+
                  ": 401 Unauthorized")).
Proof.
  apply (proj2 (loadTokenizerData_needs_an_ok_response stub_fetch "gpt2"
                  {| token := None; baseUrl := None |})
           {| ok := false; status := 401; statusText := "Unauthorized";
              response_json := Ok (DocObject bpe_descriptor) |}).
  - reflexivity.
  - reflexivity.
Defined.
